(** * kfix: the klog-to-logr driver (main.go)

    A shallow embedding of [main.go]: the command-line driver, the
    per-file output handler ([handleFix]) and the diff helper built on two
    temporary files.  The operating system (files, the clock of system
    calls, the external [diff] program) is an explicit world that every
    operation threads through; Go's [(value, error)] results are pairs
    whose second component is [option error]. *)

From Stdlib Require Import ZArith NArith String Ascii List.
From Stdlib.Strings Require Import Byte.
From Stdlib Require Import Sorting.Sorted.
From stdpp Require Import gmap strings list.

Local Open Scope string_scope.

(** ** Bytes, errors and files *)

Abbreviation bytes := (list Byte.byte).

#[global] Instance byte_eq_dec : EqDecision Byte.byte := Byte.byte_eq_dec.

(** Go [error] values.  [Wrapped p e] is [fmt.Errorf (p ++ "%s", e)];
    [ExitError c] is the [*exec.ExitError] of a child that ended with
    status [c]. *)
Inductive error : Type :=
  | ErrMsg (msg : string)
  | ExitError (code : Z)
  | Wrapped (prefix : string) (cause : error).

(** A regular file: its contents and its permission bits. *)
Record File : Type := mkFile { content : bytes; perm : N }.

(** How a child process ended: it ran and exited with a status, or it
    could not be started at all. *)
Inductive CmdStatus : Type :=
  | Exited (code : Z)
  | NotStarted (why : error).

Record CmdResult : Type := mkCmd { output : bytes; status : CmdStatus }.

(** [exec.Cmd.CombinedOutput]'s error: nil exactly for exit status 0. *)
Definition cmd_error (s : CmdStatus) : option error :=
  match s with
  | Exited 0 => None
  | Exited c => Some (ExitError c)
  | NotStarted e => Some e
  end.

(** The environment a run happens in.  System calls are numbered by the
    world's clock; [fault n] says whether the [n]-th call fails, [short n]
    how many bytes a failing write still stores, [random n] which name
    suffixes the temp-file creation draws, and [command n] what an external
    program started at that moment answers. *)
Record Env : Type := mkEnv {
  fault : nat → option error;
  short : nat → nat;
  random : nat → list string;
  command : nat → gmap string File → string → list string → CmdResult;
  tempDir : string;
  workDir : string;
  umask : N
}.

(** ** Path cleaning ([path/filepath], Unix) *)

Definition slash : ascii := "/"%char.
Definition newline : string := String (ascii_of_nat 10) EmptyString.
Definition tab : string := String (ascii_of_nat 9) EmptyString.

(** The elements of a path between separators (empty ones included). *)
Fixpoint splitSlash (s : string) : list string :=
  match s with
  | EmptyString => [EmptyString]
  | String c rest =>
      if Ascii.eqb c slash then EmptyString :: splitSlash rest
      else match splitSlash rest with
           | [] => [String c EmptyString]
           | e :: es => String c e :: es
           end
  end.

Definition isRooted (s : string) : bool :=
  match s with
  | String c _ => Ascii.eqb c slash
  | EmptyString => false
  end.

(** One round of [Clean]'s loop, element by element.  [out] is the output
    buffer as the list of elements written so far, last one first;
    [dotdot] counts the leading [..] elements that may not be backed over. *)
Definition cleanStep (rooted : bool) (st : list string * nat) (e : string)
  : list string * nat :=
  let '(out, dotdot) := st in
  if String.eqb e "" then st
  else if String.eqb e "." then st
  else if String.eqb e ".." then
    if Nat.ltb dotdot (length out) then (tl out, dotdot)
    else if rooted then st
    else (".." :: out, S dotdot)
  else (e :: out, dotdot).

Fixpoint joinSlash (es : list string) : string :=
  match es with
  | [] => ""
  | [e] => e
  | e :: rest => e +:+ "/" +:+ joinSlash rest
  end.

(** [filepath.Clean]: the shortest path naming the same file by purely
    lexical processing. *)
Definition Clean (path : string) : string :=
  if String.eqb path "" then "."
  else
    let rooted := isRooted path in
    let '(out, _) := fold_left (cleanStep rooted) (splitSlash path) ([], 0) in
    if rooted then "/" +:+ joinSlash (rev out)
    else match out with
         | [] => "."
         | _ => joinSlash (rev out)
         end.

(** [filepath.Join] of two elements: empty elements are dropped and the
    result is cleaned. *)
Definition Join (a b : string) : string :=
  if String.eqb a "" then
    (if String.eqb b "" then "" else Clean b)
  else Clean (a +:+ "/" +:+ b).

(** An element that [Clean] copies as it is. *)
Definition plainElem (e : string) : bool :=
  negb (String.eqb e "") && negb (String.eqb e ".") && negb (String.eqb e "..").

(** A relative path that is already clean and does not climb: every
    element between separators is a plain name. *)
Definition isCleanRelative (p : string) : bool := forallb plainElem (splitSlash p).

(** The header line as the specification words it: [diff], the original
    path, and the original path behind [fixed/]. *)
Definition specHeader (name : string) : string :=
  "diff " +:+ name +:+ " fixed/" +:+ name +:+ newline.

(** The line [handleFix] prints ahead of a diff:
    [fmt.Printf("diff %s %s\n", name, filepath.Join("fixed", name))]. *)
Definition diffHeader (name : string) : string :=
  "diff " +:+ name +:+ " " +:+ Join "fixed" name +:+ newline.


(** ** Programs, packages and the world *)

Section Model.

Context {tree LoaderState : Type}.

(** What one application of a rewrite rule answers: the (possibly
    mutated) tree and whether it changed, or an unrecoverable failure. *)
Inductive Rewrite : Type :=
  | Rewritten (t : tree) (changed : bool)
  | Unfixable (cause : error).

(** [fixer.Fix]: a named, described rewrite of one file's syntax tree. *)
Record Fix : Type := mkFix {
  fix_Name : string;
  fix_Description : string;
  fix_rewrite : tree → Rewrite
}.

(** [fixer.FileInfo]: what the engine hands to [HandleFix]. *)
Record FileInfo : Type := mkInfo { info_Name : string; info_AST : tree }.

(** The loader's package: [pkg.BuildInfo.ImportPath] and its files. *)
Record Package : Type := mkPkg { ImportPath : string; Files : list FileInfo }.

(** An argument of a formatted print. *)
Inductive Arg : Type :=
  | ArgS (s : string)
  | ArgE (e : error).

(** What reaches the error stream: [fmt.Fprintf os.Stderr] calls (format
    and arguments, as called) and [flag.PrintDefaults]. *)
Inductive ErrOut : Type :=
  | Fprintf (format : string) (args : list Arg)
  | PrintDefaults.

(** Entries of the logr/glog logger. *)
Inductive LogEntry : Type :=
  | LogError (e : error) (msg : string) (kvs : list (string * string))
  | LogInfo (v : nat) (msg : string) (kvs : list (string * string)).

(** The mutable world of a run: the disk, the two output streams, the
    log, the package-level variable [allFixes], the loader object shared by
    importer, engine and handler, and the count of system calls made. *)
Record World : Type := mkWorld {
  fs : gmap string File;
  stdout : bytes;
  stderr : list ErrOut;
  logs : list LogEntry;
  allFixes : list Fix;
  loader : LoaderState;
  clock : nat
}.

Definition set_fs (f : gmap string File → gmap string File) (w : World) : World :=
  mkWorld (f (fs w)) (stdout w) (stderr w) (logs w) (allFixes w) (loader w) (clock w).
Definition set_stdout (f : bytes → bytes) (w : World) : World :=
  mkWorld (fs w) (f (stdout w)) (stderr w) (logs w) (allFixes w) (loader w) (clock w).
Definition set_stderr (f : list ErrOut → list ErrOut) (w : World) : World :=
  mkWorld (fs w) (stdout w) (f (stderr w)) (logs w) (allFixes w) (loader w) (clock w).
Definition set_logs (f : list LogEntry → list LogEntry) (w : World) : World :=
  mkWorld (fs w) (stdout w) (stderr w) (f (logs w)) (allFixes w) (loader w) (clock w).
Definition set_allFixes (f : list Fix → list Fix) (w : World) : World :=
  mkWorld (fs w) (stdout w) (stderr w) (logs w) (f (allFixes w)) (loader w) (clock w).
Definition set_loader (f : LoaderState → LoaderState) (w : World) : World :=
  mkWorld (fs w) (stdout w) (stderr w) (logs w) (allFixes w) (f (loader w)) (clock w).
Definition tick (w : World) : World :=
  mkWorld (fs w) (stdout w) (stderr w) (logs w) (allFixes w) (loader w) (S (clock w)).

(** Stateful computations over the world. *)
Definition IO (A : Type) : Type := World → A * World.

Definition ret {A : Type} (a : A) : IO A := fun w => (a, w).
Definition bind {A B : Type} (m : IO A) (k : A → IO B) : IO B :=
  fun w => let '(a, w1) := m w in k a w1.

(** Code of this repository outside [main.go] and library calls whose
    result the driver only passes on. *)
Record Collab : Type := mkCollab {
  (* fixer.GofmtFile: the reconciler, tree and file set to formatted bytes *)
  GofmtFile : tree → LoaderState → bytes * option error;
  (* importer.NewImporter: the loader for a working directory *)
  NewImporter : string → LoaderState;
  (* imp.Import: resolves a path against the disk, updating the loader *)
  Import : string → gmap string File → LoaderState → LoaderState * option error;
  (* loader.PackageInfoFor *)
  PackageInfoFor : string → LoaderState → Package;
  (* strings.TrimSpace *)
  TrimSpace : string → string
}.

End Model.

Arguments Rewrite : clear implicits.
Arguments Fix : clear implicits.
Arguments FileInfo : clear implicits.
Arguments Package : clear implicits.
Arguments World : clear implicits.
Arguments IO : clear implicits.
Arguments Collab : clear implicits.

Declare Scope io_scope.
Delimit Scope io_scope with io.
Notation "'do' x <- m ;; k" := (bind m (fun x => k))
  (at level 10, x name, m at level 99, k at level 200) : io_scope.
Notation "'do' ' p <- m ;; k" := (bind m (fun x => match x with p => k end))
  (at level 10, p pattern, m at level 99, k at level 200) : io_scope.

(** ** The operating system *)

Section System.

Context {tree LoaderState : Type} (E : Env).

Local Open Scope io_scope.
Local Abbreviation World := (World tree LoaderState).
Local Abbreviation IO := (IO tree LoaderState).

Definition errNotExist : error := ErrMsg "no such file or directory".
Definition errExist : error := ErrMsg "file exists".
Definition errPatternHasSeparator : error :=
  ErrMsg "pattern contains path separator".

Fixpoint hasSlash (s : string) : bool :=
  match s with
  | EmptyString => false
  | String c rest => Ascii.eqb c slash || hasSlash rest
  end.

Fixpoint lastIsSlash (s : string) : bool :=
  match s with
  | EmptyString => false
  | String c EmptyString => Ascii.eqb c slash
  | String _ rest => lastIsSlash rest
  end.

(** [os.joinPath]: the directory, a separator unless it already ends in
    one, and the name. *)
Definition joinPath (dir name : string) : string :=
  if lastIsSlash dir then dir +:+ name else dir +:+ "/" +:+ name.

(** [os.prefixAndSuffix]: the pattern is split at its last star. *)
Fixpoint splitLastStar (s : string) : option (string * string) :=
  match s with
  | EmptyString => None
  | String c rest =>
      match splitLastStar rest with
      | Some (p, q) => Some (String c p, q)
      | None => if Ascii.eqb c "*"%char then Some (EmptyString, rest) else None
      end
  end.

Definition prefixAndSuffix (pattern : string) : string * string :=
  match splitLastStar pattern with
  | Some pq => pq
  | None => (pattern, EmptyString)
  end.

(** The first drawn name that does not exist yet ([O_EXCL]); the draws
    are retried a bounded number of times. *)
Fixpoint firstFree (disk : gmap string File) (pre suf : string)
    (draws : list string) : option string :=
  match draws with
  | [] => None
  | r :: rest =>
      match disk !! (pre +:+ r +:+ suf) with
      | None => Some (pre +:+ r +:+ suf)
      | Some _ => firstFree disk pre suf rest
      end
  end.

(** [ioutil.TempFile] ([os.CreateTemp]): a new, empty file with mode 0600
    under a name nobody uses.  The handle is the name. *)
Definition TempFile (dir pattern : string) : IO (string * option error) :=
  fun w =>
    let t := clock w in
    let w1 := tick w in
    let dir1 := if String.eqb dir "" then tempDir E else dir in
    if hasSlash pattern then (("", Some errPatternHasSeparator), w1)
    else
      let '(pre, suf) := prefixAndSuffix pattern in
      match fault E t with
      | Some e => (("", Some e), w1)
      | None =>
          match firstFree (fs w) (joinPath dir1 pre) suf (random E t) with
          | None => (("", Some errExist), w1)
          | Some name =>
              ((name, None),
               set_fs (insert name (mkFile [] (N.ldiff 384 (umask E)))) w1)
          end
      end.

Definition append_content (data : bytes) (f : File) : File :=
  mkFile (content f ++ data)%list (perm f).

(** [File.Write]: all of the data, or an error after a part of it. *)
Definition Write (name : string) (data : bytes) : IO (option error) :=
  fun w =>
    let t := clock w in
    match fault E t with
    | Some e =>
        (Some e, set_fs (alter (append_content (take (short E t) data)) name) (tick w))
    | None => (None, set_fs (alter (append_content data) name) (tick w))
    end.

(** [File.Close]. *)
Definition Close (name : string) : IO (option error) :=
  fun w => (fault E (clock w), tick w).

(** [os.Remove]: like every system call it may fail, and the file then
    stays.  (Every caller in this program discards the error.) *)
Definition Remove (name : string) : IO (option error) :=
  fun w =>
    match fault E (clock w) with
    | Some e => (Some e, tick w)
    | None =>
        (match fs w !! name with
         | None => Some errNotExist
         | Some _ => None
         end,
         set_fs (delete name) (tick w))
    end.

(** [os.Open] for reading. *)
Definition Open (name : string) : IO (option error) :=
  fun w =>
    match fault E (clock w) with
    | Some e => (Some e, tick w)
    | None =>
        match fs w !! name with
        | None => (Some errNotExist, tick w)
        | Some _ => (None, tick w)
        end
    end.

(** [ioutil.ReadAll] on an open file. *)
Definition ReadAll (name : string) : IO (bytes * option error) :=
  fun w =>
    match fault E (clock w) with
    | Some e => (([], Some e), tick w)
    | None =>
        match fs w !! name with
        | None => (([], None), tick w)
        | Some f => ((content f, None), tick w)
        end
    end.

(** [os.OpenFile name (O_WRONLY|O_CREATE|O_TRUNC) perm]: an existing file
    is emptied and keeps its mode; a missing one is created with [perm]
    less the umask. *)
Definition OpenFileTrunc (name : string) (prm : N) : IO (option error) :=
  fun w =>
    match fault E (clock w) with
    | Some e => (Some e, tick w)
    | None =>
        let mode := match fs w !! name with
                    | Some f => perm f
                    | None => N.ldiff prm (umask E)
                    end in
        (None, set_fs (insert name (mkFile [] mode)) (tick w))
    end.

(** [ioutil.WriteFile]. *)
Definition WriteFile (name : string) (data : bytes) (prm : N) : IO (option error) :=
  do err <- OpenFileTrunc name prm ;;
  match err with
  | Some e => ret (Some e)
  | None =>
      do err <- Write name data ;;
      do err1 <- Close name ;;
      ret (match err with Some e => Some e | None => err1 end)
  end.

(** [exec.Command(name, args...).CombinedOutput()]. *)
Definition CombinedOutput (name : string) (args : list string)
  : IO (bytes * option error) :=
  fun w =>
    let r := command E (clock w) (fs w) name args in
    ((output r, cmd_error (status r)), tick w).

(** [os.Getwd]. *)
Definition Getwd : IO (string * option error) :=
  fun w =>
    match fault E (clock w) with
    | Some e => (("", Some e), tick w)
    | None => ((workDir E, None), tick w)
    end.

(** [fmt.Printf] and [os.Stdout.Write]. *)
Definition StdoutWrite (data : bytes) : IO unit :=
  fun w => (tt, set_stdout (fun o => (o ++ data)%list) w).

Definition Printf (text : string) : IO unit :=
  StdoutWrite (list_byte_of_string text).

Definition eprint (e : ErrOut) (w : World) : World :=
  set_stderr (fun o => (o ++ [e])%list) w.

Definition logError (e : error) (msg : string) (kvs : list (string * string))
    (w : World) : World :=
  set_logs (fun l => (l ++ [LogError e msg kvs])%list) w.

Definition logInfo (v : nat) (msg : string) (kvs : list (string * string))
    (w : World) : World :=
  set_logs (fun l => (l ++ [LogInfo v msg kvs])%list) w.

(** ** main.go: the diff helper *)

(** [readFile] reads the given named file, returning the contents. *)
Definition readFile (filename : string) : IO (bytes * option error) :=
  do err <- Open filename ;;
  match err with
  | Some e => ret ([], Some e)
  | None =>
      do ' (src, err) <- ReadAll filename ;;
      do _ <- Close filename ;;
      match err with
      | Some e => ret ([], Some e)
      | None => ret (src, None)
      end
  end.

Definition writeTempFile (dir prefix : string) (data : bytes)
  : IO (string * option error) :=
  do ' (file, err) <- TempFile dir prefix ;;
  match err with
  | Some e => ret ("", Some e)
  | None =>
      do err <- Write file data ;;
      do err1 <- Close file ;;
      let err := match err with Some e => Some e | None => err1 end in
      match err with
      | Some e => do _ <- Remove file ;; ret ("", Some e)
      | None => ret (file, None)
      end
  end.

(** [diff]: each deferred [os.Remove] runs once the part of the body after
    its [defer] statement has produced the results. *)
Definition diff (b1 b2 : bytes) : IO (bytes * option error) :=
  do ' (f1, err) <- writeTempFile "" "kfix" b1 ;;
  match err with
  | Some e => ret ([], Some e)
  | None =>
      do r <- (do ' (f2, err) <- writeTempFile "" "kfix" b2 ;;
               match err with
               | Some e => ret ([], Some e)
               | None =>
                   do r <- (do ' (data, err) <- CombinedOutput "diff" ["-u"; f1; f2] ;;
                            if Nat.ltb 0 (length data) then ret (data, None)
                            else ret (data, err)) ;;
                   do _ <- Remove f2 ;;
                   ret r
               end) ;;
      do _ <- Remove f1 ;;
      ret r
  end.

(** The system call, if there is one, with which [writeTempFile] unlinks a
    file it could not store: the clock value at that [os.Remove]. *)
Definition storeUnlink (dir prefix : string) (data : bytes) (w : World) : option nat :=
  match TempFile dir prefix w with
  | ((_, Some _), _) => None
  | ((file, None), w1) =>
      let '(err, w2) := Write file data w1 in
      let '(err1, w3) := Close file w2 in
      match err, err1 with
      | None, None => None
      | _, _ => Some (clock w3)
      end
  end.

(** The clock values of the [os.Remove] calls a call of [diff] makes:
    the one inside a failing [writeTempFile] and the deferred ones. *)
Definition diffUnlinks (b1 b2 : bytes) (w : World) : list nat :=
  match writeTempFile "" "kfix" b1 w with
  | ((_, Some _), _) => option_list (storeUnlink "" "kfix" b1 w)
  | ((_, None), w1) =>
      match writeTempFile "" "kfix" b2 w1 with
      | ((_, Some _), w2) =>
          (option_list (storeUnlink "" "kfix" b2 w1) ++ [clock w2])%list
      | ((_, None), w2) => [S (clock w2); S (S (clock w2))]
      end
  end.

(** Every file of [w] is in [w1] as it was. *)
Definition keepsFiles (w w1 : World) : Prop :=
  ∀ p, is_Some (fs w !! p) → fs w1 !! p = fs w !! p.

(** What a call of [diff] went through: a temporary file could not be
    stored, or the utility was invoked on two files of the given disk. *)
Inductive DiffRun : Type :=
  | StoreFailed (e : error)
  | Invoked (f1 f2 : string) (disk : gmap string File) (r : CmdResult).

Definition diffRun (b1 b2 : bytes) (w : World) : DiffRun :=
  match writeTempFile "" "kfix" b1 w with
  | ((_, Some e), _) => StoreFailed e
  | ((f1, None), w1) =>
      match writeTempFile "" "kfix" b2 w1 with
      | ((_, Some e), _) => StoreFailed e
      | ((f2, None), w2) =>
          Invoked f1 f2 (fs w2) (command E (clock w2) (fs w2) "diff" ["-u"; f1; f2])
      end
  end.

(** The temporary file was created, took all of the data and was closed. *)
Definition storedAndClosed (dir prefix : string) (data : bytes) (w : World) : Prop :=
  ∃ name w1 w2 w3,
    TempFile dir prefix w = ((name, None), w1)
    ∧ Write name data w1 = (None, w2)
    ∧ Close name w2 = (None, w3).

(** Everything but the disk and the clock is as before. *)
Definition sameButDisk (w w1 : World) : Prop :=
  stdout w1 = stdout w ∧ stderr w1 = stderr w ∧ logs w1 = logs w
  ∧ allFixes w1 = allFixes w ∧ loader w1 = loader w.

End System.

(** ** main.go: handler, usage and driver *)

Section Driver.

Context {tree LoaderState : Type} (E : Env) (C : Collab tree LoaderState).

Local Open Scope io_scope.
Local Abbreviation World := (World tree LoaderState).
Local Abbreviation IO := (IO tree LoaderState).
Local Abbreviation Fix := (Fix tree).
Local Abbreviation FileInfo := (FileInfo tree).
Local Abbreviation Package := (Package tree).

(** [byName.Less]: the order of the names, byte by byte. *)
Definition Less (f g : Fix) : bool := String.ltb (fix_Name f) (fix_Name g).

(** [sort.Sort(byName(allFixes))]: the fixes ordered by [Less].  (Names
    are unique within a run, so the order among equal names, which
    [sort.Sort] leaves open, does not arise.) *)
Fixpoint insertByName (f : Fix) (l : list Fix) : list Fix :=
  match l with
  | [] => [f]
  | g :: rest =>
      if Less g f then g :: insertByName f rest
      else f :: g :: rest
  end.

Definition sortByName (l : list Fix) : list Fix := fold_right insertByName [] l.

(** [strings.Replace(desc, "\n", "\n\t", -1)]. *)
Fixpoint indentLines (s : string) : string :=
  match s with
  | EmptyString => EmptyString
  | String c rest =>
      if Ascii.eqb c (ascii_of_nat 10)
      then newline +:+ tab +:+ indentLines rest
      else String c (indentLines rest)
  end.

Definition usageLine : string := "usage: kfix [-diff] [path ...]" +:+ newline.
Definition importMsg : string := "unable to import package from argument".
Definition abortFormat : string := "aborting package %q: %v" +:+ newline.

Definition usageEntry (w : World) (f : Fix) : World :=
  let w1 := eprint (Fprintf (newline +:+ "%s" +:+ newline) [ArgS (fix_Name f)]) w in
  let desc := TrimSpace C (fix_Description f) in
  let desc := indentLines desc in
  eprint (Fprintf (tab +:+ "%s" +:+ newline) [ArgS desc]) w1.

(** [usage] prints the help text, sorting the package-level [allFixes] in
    place on the way, and ends the process with status 93. *)
Definition usage (w : World) : World * Z :=
  let w := eprint (Fprintf usageLine []) w in
  let w := eprint PrintDefaults w in
  let w := eprint (Fprintf (newline +:+ "Available fixups are:" +:+ newline) []) w in
  let w := set_allFixes sortByName w in
  let w := fold_left usageEntry (allFixes w) w in
  (w, 93%Z).

(** [diffFixHandler]; its [fileSet] is the file set of the shared
    [loader], which lives in the world. *)
Record diffFixHandler : Type := mkHandler { doDiff : bool }.

Definition handleFix (h : diffFixHandler) (info : FileInfo) : IO (option error) :=
  (* Get the original source. *)
  do ' (src, err) <- readFile E (info_Name info) ;;
  match err with
  | Some e => ret (Some e)
  | None =>
      (* Format the AST again. *)
      do ' (newSrc, err) <- (fun w => (GofmtFile C (info_AST info) (loader w), w)) ;;
      match err with
      | Some e => ret (Some e)
      | None =>
          if doDiff h then
            do ' (data, err) <- diff E src newSrc ;;
            match err with
            | Some e => ret (Some (Wrapped "computing diff: " e))
            | None =>
                do _ <- Printf (diffHeader (info_Name info)) ;;
                do _ <- StdoutWrite data ;;
                ret None
            end
          else WriteFile E (info_Name info) newSrc 0
      end
  end.

(** [fixer.Fixer] as [main] fills it in; [Log] and [Loader] refer to
    objects of the world. *)
Record Fixer : Type := mkFixer {
  Fixes : list Fix;
  HandleFix : FileInfo → IO (option error)
}.

(** *** The fix engine *)

Definition errIterationCap : error := ErrMsg "iteration cap exceeded".

(** Modelled from the spec: the engine ([fixer.Fixer.FixPackage]) is not
    in main.go.  One fix is applied to a tree and re-applied while it
    reports a change, up to a bounded number of applications; reaching the
    bound is an internal error. *)
Fixpoint fixLoop (cap : nat) (f : Fix) (t : tree) : tree + error :=
  match cap with
  | O => inr errIterationCap
  | S n =>
      match fix_rewrite f t with
      | Unfixable cause => inr cause
      | Rewritten t1 false => inl t1
      | Rewritten t1 true => fixLoop n f t1
      end
  end.

(** Modelled from the spec: the engine's pass over the fixes, in the order
    given, each to its fixed point, the next one on the updated tree; the
    first failure stops the file and names the fix. *)
Fixpoint applyFixes (cap : nat) (fixes : list Fix) (t : tree) : tree + (string * error) :=
  match fixes with
  | [] => inl t
  | f :: rest =>
      match fixLoop cap f t with
      | inr cause => inr (fix_Name f, cause)
      | inl t1 => applyFixes cap rest t1
      end
  end.

(** Modelled from the spec: the engine's pass over a package's files, in
    the loader's order; a fixed file goes to [HandleFix] before the next
    one is looked at, and the first failure ends the package. *)
Fixpoint fixFiles (cap : nat) (fx : Fixer) (files : list FileInfo) : IO (option error) :=
  match files with
  | [] => ret None
  | file :: rest =>
      match applyFixes cap (Fixes fx) (info_AST file) with
      | inr (name, cause) =>
          ret (Some (Wrapped (info_Name file +:+ ": " +:+ name +:+ ": ") cause))
      | inl t1 =>
          do err <- HandleFix fx (mkInfo (info_Name file) t1) ;;
          match err with
          | Some e => ret (Some e)
          | None => fixFiles cap fx rest
          end
      end
  end.

(** Modelled from the spec: [FixPackage] of the engine, which is not in
    main.go. *)
Definition FixPackage (cap : nat) (fx : Fixer) (pkg : Package) : IO (option error) :=
  fixFiles cap fx (Files pkg).

(** *** The driver *)

(** What [flag.Parse] makes of the command line: a complaint (it then
    calls [flag.Usage]), or the value of [-diff] and the path arguments. *)
Inductive Flags : Type :=
  | BadFlags (complaint : option string)
  | Parsed (diff : bool) (args : list string).

Variable engine : Fixer → Package → IO (option error).

(** How the body of the argument loop ends for one argument. *)
Inductive ArgResult : Type :=
  | ArgDone
  | ImportFailed (e : error)
  | FixFailed (e : error).

Definition doImport (arg : string) : IO (option error) :=
  fun w =>
    let '(l, err) := Import C arg (fs w) (loader w) in
    (err, set_loader (fun _ => l) w).

(** The body of [main]'s loop for one argument, up to the point where it
    either exits or goes on to the next argument. *)
Definition processArg (fx : Fixer) (arg : string) : IO ArgResult :=
  do err <- doImport arg ;;
  match err with
  | Some e =>
      fun w => (ImportFailed e,
                logError e importMsg [("path", arg)] w)
  | None =>
      do pkg <- (fun w => (PackageInfoFor C arg (loader w), w)) ;;
      do _ <- (fun w => (tt, logInfo 1 "fixing package" [("package", ImportPath pkg)] w)) ;;
      do err <- engine fx pkg ;;
      match err with
      | Some e =>
          fun w => (FixFailed e,
                    eprint (Fprintf abortFormat [ArgS arg; ArgE e]) w)
      | None => ret ArgDone
      end
  end.

(** [main]'s loop over the path arguments; the result is the final world
    and the status the process exits with. *)
Fixpoint argLoop (fx : Fixer) (args : list string) (w : World) : World * Z :=
  match args with
  | [] => (w, 0%Z)
  | arg :: rest =>
      match processArg fx arg w with
      | (ArgDone, w1) => argLoop fx rest w1
      | (ImportFailed _, w1) => (w1, 1%Z)
      | (FixFailed _, w1) => (w1, 5%Z)
      end
  end.

(** [main] up to the loop: the process has exited, or the handler and the
    fixer are set up. *)
Definition setup (flags : Flags) (w : World) : World * (Z + Fixer * list string) :=
  match flags with
  | BadFlags complaint =>
      let w := match complaint with
               | Some msg => eprint (Fprintf msg []) w
               | None => w
               end in
      let '(w, code) := usage w in (w, inl code)
  | Parsed d args =>
      match args with
      | [] => let '(w, code) := usage w in (w, inl code)
      | _ :: _ =>
          let '((cwd, err), w) := Getwd E w in
          match err with
          | Some e => (logError e "where are we?  Nobody knows..." [] w, inl 1%Z)
          | None =>
              let w := set_loader (fun _ => NewImporter C cwd) w in
              let fixHandler := mkHandler d in
              let fixer := mkFixer (allFixes w) (handleFix fixHandler) in
              (w, inr (fixer, args))
          end
      end
  end.

Definition main (flags : Flags) (w : World) : World * Z :=
  match setup flags w with
  | (w1, inl code) => (w1, code)
  | (w1, inr (fixer, args)) => argLoop fixer args w1
  end.

(** The arguments all run to completion from [w], leaving [w1]. *)
Fixpoint runAll (fx : Fixer) (args : list string) (w : World) : option World :=
  match args with
  | [] => Some w
  | arg :: rest =>
      match processArg fx arg w with
      | (ArgDone, w1) => runAll fx rest w1
      | _ => None
      end
  end.

End Driver.

(** ** A sample installation

    Trees are numbers, the loader remembers the paths it imported, the
    formatter prints a tree [t] as [t] letters, and the diff program
    answers with both files when they differ. *)

Module Sample.

Definition double : Fix nat :=
  mkFix "zeta-double" "doubles small trees"
    (fun t => if (Nat.ltb 0 t && Nat.ltb t 8)%bool
              then Rewritten (2 * t) true else Rewritten t false).

Definition incr : Fix nat :=
  mkFix "alpha-incr" "increments small trees"
    (fun t => if Nat.ltb t 8 then Rewritten (S t) true else Rewritten t false).

Definition picky : Fix nat :=
  mkFix "picky" "gives up on thirteen"
    (fun t => if Nat.eqb t 13 then Unfixable (ErrMsg "unsupported construct")
              else Rewritten t false).

Definition restless : Fix nat :=
  mkFix "restless" "never settles" (fun t => Rewritten (S t) true).

Definition render (t : nat) (_ : list string) : bytes * option error :=
  (repeat "x"%byte t, None).

Definition resolve (arg : string) (disk : gmap string File) (l : list string)
  : list string * option error :=
  if String.eqb arg "bad" then (l, Some (ErrMsg "cannot find package"))
  else (arg :: l, None).

Definition packageOf (arg : string) (l : list string) : Package nat :=
  if String.eqb arg "broken"
  then mkPkg "example.com/broken" [mkInfo "broken/a.go" 5; mkInfo "broken/b.go" 13]
  else mkPkg ("example.com/" +:+ arg) [mkInfo (arg +:+ "/a.go") 3].

Definition collab : Collab nat (list string) :=
  mkCollab render (fun cwd => [cwd]) resolve packageOf (fun s => s).

Definition diffTool (t : nat) (disk : gmap string File) (name : string)
    (args : list string) : CmdResult :=
  match args with
  | [_; f1; f2] =>
      match disk !! f1, disk !! f2 with
      | Some a, Some b =>
          if decide (content a = content b) then mkCmd [] (Exited 0)
          else mkCmd (content a ++ content b)%list (Exited 1)
      | _, _ => mkCmd (list_byte_of_string "diff: no such file") (Exited 2)
      end
  | _ => mkCmd [] (Exited 2)
  end.

(** No system call fails. *)
Definition env : Env :=
  mkEnv (fun _ => None) (fun _ => 0) (fun _ => ["1"; "2"]) diffTool
    "/tmp" "/home/dev" 18.

(** The temporary directory cannot be written to: the first system call
    fails.  The diff program itself is in order and would report a
    difference whenever it is run. *)
Definition envNoTemp : Env :=
  mkEnv (fun n => if Nat.eqb n 0 then Some (ErrMsg "permission denied") else None)
    (fun _ => 0) (fun _ => ["1"; "2"])
    (fun _ _ _ _ => mkCmd (list_byte_of_string "@@ -1 +1 @@") (Exited 1))
    "/tmp" "/home/dev" 18.

(** The diff program cannot be started. *)
Definition envNoDiff : Env :=
  mkEnv (fun _ => None) (fun _ => 0) (fun _ => ["1"; "2"])
    (fun _ _ _ _ => mkCmd [] (NotStarted (ErrMsg "executable file not found in $PATH")))
    "/tmp" "/home/dev" 18.

(** The second write of a run stops after two bytes. *)
Definition envShortWrite : Env :=
  mkEnv (fun n => if Nat.eqb n 1 then Some (ErrMsg "no space left on device") else None)
    (fun _ => 2) (fun _ => ["1"; "2"]) diffTool "/tmp" "/home/dev" 18.

Definition disk0 : gmap string File :=
  <["good/a.go" := mkFile (repeat "x"%byte 3) 420]>
  (<["broken/a.go" := mkFile (repeat "x"%byte 5) 420]>
  (<["broken/b.go" := mkFile (repeat "x"%byte 13) 384]> ∅)).

Definition w0 : World nat (list string) :=
  mkWorld disk0 [] [] [] [double; incr; picky] [] 0.

(** A world whose only source file is named by an absolute path. *)
Definition wAbs : World nat (list string) :=
  mkWorld (<["/src/a.go" := mkFile (repeat "x"%byte 3) 420]> ∅) [] [] []
    [double; incr; picky] [] 0.

(** The fixer [main] builds in [w0], and the worlds of a run in write mode
    right after the setup and after the argument [good]. *)
Definition fixer0 : @Fixer nat (list string) :=
  mkFixer [double; incr; picky] (handleFix env collab (mkHandler false)).

Definition wSetup : World nat (list string) :=
  fst (setup env collab (Parsed false ["good"]) w0).

Definition wGood : World nat (list string) :=
  fst (argLoop collab (FixPackage 10) fixer0 ["good"] wSetup).

(** The world the engine leaves when it then fails on the package
    [broken]: its first file is rewritten, its second one is unfixable. *)
Definition wBroken : World nat (list string) :=
  snd (FixPackage 10 fixer0 (packageOf "broken" ("broken" :: loader wGood))
         (logInfo 1 "fixing package" [("package", "example.com/broken")]
            (set_loader (fun _ => "broken" :: loader wGood) wGood))).

End Sample.

(** ** [byName] as a [sort.Interface]

    Indices are Go [int]s; reading a slice outside its bounds panics, which
    is the result [None]. *)

Section ByName.

Context {tree : Type}.
Local Abbreviation Fix := (Fix tree).

(** [f[i]]. *)
Definition at_index (f : list Fix) (i : Z) : option Fix :=
  if (i <? 0)%Z then None else f !! Z.to_nat i.

(** [byName.Len]. *)
Definition Len (f : list Fix) : Z := Z.of_nat (length f).

(** [byName.Swap]: [f[i], f[j] = f[j], f[i]], both reads first. *)
Definition Swap (f : list Fix) (i j : Z) : option (list Fix) :=
  match at_index f i, at_index f j with
  | Some a, Some b => Some (<[Z.to_nat j := a]> (<[Z.to_nat i := b]> f))
  | _, _ => None
  end.

(** [byName.Less] on two indices: [f[i].Name < f[j].Name]. *)
Definition LessAt (f : list Fix) (i j : Z) : option bool :=
  match at_index f i, at_index f j with
  | Some a, Some b => Some (Less a b)
  | _, _ => None
  end.

(** [f] may stand before [g] in name order: [g] is not [Less] than [f]. *)
Definition nameLe (f g : Fix) : Prop := Less g f = false.

End ByName.

(** ** What [usage] prints for one fix, and counting line ends *)

Section UsageLines.

Context {tree LoaderState : Type} (C : Collab tree LoaderState).

(** The two [Fprintf] calls of [usage]'s loop body for the fix [f]. *)
Definition usageLines (f : Fix tree) : list ErrOut :=
  [Fprintf (newline +:+ "%s" +:+ newline) [ArgS (fix_Name f)];
   Fprintf (tab +:+ "%s" +:+ newline)
     [ArgS (indentLines (TrimSpace C (fix_Description f)))]].

Fixpoint countNewlines (s : string) : nat :=
  match s with
  | EmptyString => 0
  | String c rest =>
      (if Ascii.eqb c (ascii_of_nat 10) then 1 else 0) + countNewlines rest
  end.

(** The message [main] logs when [os.Getwd] fails. *)
Definition whereMsg : string := "where are we?  Nobody knows...".

End UsageLines.

(** ** More of the sample installation *)

Module SampleMore.
Import Sample.

(** A formatter that gives up on the empty tree. *)
Definition renderStrict (t : nat) (l : list string) : bytes * option error :=
  if Nat.eqb t 0 then ([], Some (ErrMsg "empty tree")) else render t l.

Definition collabStrict : Collab nat (list string) :=
  mkCollab renderStrict (fun cwd => [cwd]) resolve packageOf (fun s => s).

(** The fifth system call, the write of a rewrite, stops after two bytes. *)
Definition envWriteStops : Env :=
  mkEnv (fun n => if Nat.eqb n 4 then Some (ErrMsg "no space left on device") else None)
    (fun _ => 2) (fun _ => ["1"; "2"]) diffTool "/tmp" "/home/dev" 18.

(** The second system call, the write to a temporary file, stops after
    two bytes, and the unlink that follows is refused. *)
Definition envStuckFile : Env :=
  mkEnv (fun n => if Nat.eqb n 1 then Some (ErrMsg "no space left on device")
                  else if Nat.eqb n 3 then Some (ErrMsg "operation not permitted")
                  else None)
    (fun _ => 2) (fun _ => ["1"; "2"]) diffTool "/tmp" "/home/dev" 18.

(** From the eighth system call on, every call is refused: in a call of
    [diff] from a fresh clock these are the two deferred unlinks. *)
Definition envNoUnlink : Env :=
  mkEnv (fun n => if Nat.leb 7 n then Some (ErrMsg "operation not permitted") else None)
    (fun _ => 0) (fun _ => ["1"; "2"]) diffTool "/tmp" "/home/dev" 18.

Definition goodFile : FileInfo nat := mkInfo "good/a.go" 12.

(** The worlds after rewriting [good/a.go] and after previewing it again. *)
Definition wWritten : World nat (list string) :=
  snd (handleFix env collab (mkHandler false) goodFile w0).

Definition wPreviewed : World nat (list string) :=
  snd (handleFix env collab (mkHandler true) goodFile wWritten).

Definition wRead : World nat (list string) :=
  snd (readFile env "good/a.go" w0).

Definition wAborted : World nat (list string) :=
  fst (main env collab (FixPackage 10) (Parsed false ["good"; "broken"; "good"]) w0).

End SampleMore.

(** * Facts

    ** Paths *)

Lemma splitSlash_cons s : ∃ e es, splitSlash s = e :: es.
Proof.
  induction s as [|c s (e & es & IH)]; simpl; [eauto|].
  destruct (Ascii.eqb c slash); [eauto|]. rewrite IH. eauto.
Qed.

Lemma joinSlash_cons e f es : joinSlash (e :: f :: es) = e +:+ "/" +:+ joinSlash (f :: es).
Proof. reflexivity. Qed.

Lemma joinSlash_splitSlash s : joinSlash (splitSlash s) = s.
Proof.
  induction s as [|c s IH]; [reflexivity|].
  simpl splitSlash. destruct (splitSlash_cons s) as (e & es & Hs).
  rewrite Hs in *.
  destruct (Ascii.eqb c slash) eqn:Hc.
  - apply Ascii.eqb_eq in Hc as ->.
    change (joinSlash ("" :: e :: es)) with ("" +:+ "/" +:+ joinSlash (e :: es)).
    rewrite IH. reflexivity.
  - rewrite <- IH. destruct es as [|f es]; reflexivity.
Qed.

Lemma cleanStep_plain rooted out e :
  plainElem e = true → cleanStep rooted (out, 0) e = (e :: out, 0).
Proof.
  unfold plainElem, cleanStep. intros H.
  destruct (String.eqb e ""), (String.eqb e "."), (String.eqb e ".."); simpl in H; try discriminate.
  reflexivity.
Qed.

Lemma fold_cleanStep_plain rooted es out :
  forallb plainElem es = true →
  fold_left (cleanStep rooted) es (out, 0) = ((rev es ++ out)%list, 0).
Proof.
  revert out. induction es as [|e es IH]; intros out H; [reflexivity|].
  simpl in H. apply andb_true_iff in H as [He Hes].
  cbn [fold_left]. rewrite cleanStep_plain by done. rewrite IH by done.
  cbn [rev]. by rewrite <- app_assoc.
Qed.

Lemma Join_fixed_clean p :
  isCleanRelative p = true → Join "fixed" p = "fixed/" +:+ p.
Proof.
  unfold isCleanRelative, Join, Clean. intros H.
  simpl. change ("" +:+ p) with p. rewrite fold_cleanStep_plain by exact H.
  destruct (splitSlash_cons p) as (e & es & Hs).
  set (l := (rev (splitSlash p) ++ ["fixed"])%list).
  assert (Hl : l ≠ []) by (subst l; intros Hn; apply app_eq_nil in Hn as [_ [=]]).
  transitivity (joinSlash (rev l)); [destruct l; [done | reflexivity]|].
  subst l. rewrite rev_app_distr, rev_involutive, Hs. cbn [rev app].
  change (joinSlash ("fixed" :: e :: es)) with ("fixed" +:+ "/" +:+ joinSlash (e :: es)).
  by rewrite <- Hs, joinSlash_splitSlash.
Qed.

Example Clean_samples :
  Clean "a//b/./c/.." = "a/b" ∧ Clean "/../a" = "/a" ∧ Clean "../../a/.." = "../.."
  ∧ Clean "/" = "/" ∧ Clean "a/.." = "." ∧ Clean "./" = "." ∧ Clean "" = ".".
Proof. repeat split; reflexivity. Qed.

Example Join_samples :
  Join "fixed" "pkg/a.go" = "fixed/pkg/a.go"
  ∧ Join "fixed" "/src/pkg/a.go" = "fixed/src/pkg/a.go"
  ∧ Join "fixed" "./a.go" = "fixed/a.go"
  ∧ Join "fixed" "../a.go" = "a.go"
  ∧ Join "fixed" "" = "fixed".
Proof. repeat split; reflexivity. Qed.

(** ** Temporary files and the diff helper *)

Section SystemFacts.
Context {tree LoaderState : Type} (E : Env).
Local Abbreviation World := (World tree LoaderState).

Lemma firstFree_fresh (disk : gmap string File) pre suf draws n :
  firstFree disk pre suf draws = Some n → disk !! n = None.
Proof.
  induction draws as [|r rest IH]; simpl; [discriminate|].
  destruct (disk !! (pre +:+ r +:+ suf)) eqn:H; [exact IH|].
  intros [= <-]. exact H.
Qed.

Lemma firstFree_name (disk : gmap string File) pre suf draws n :
  firstFree disk pre suf draws = Some n → ∃ r, n = pre +:+ r +:+ suf.
Proof.
  induction draws as [|r rest IH]; simpl; [discriminate|].
  destruct (disk !! (pre +:+ r +:+ suf)); [exact IH|].
  intros [= <-]. by exists r.
Qed.

Lemma joinPath_nonempty dir name rest : joinPath dir name +:+ rest ≠ "".
Proof.
  unfold joinPath. destruct dir as [|c d]; simpl; [discriminate|].
  destruct (match d with "" => Ascii.eqb c slash | String _ _ => lastIsSlash d end); discriminate.
Qed.

Lemma TempFile_cases dir pat (w : World) :
  let '((name, err), w1) := TempFile E dir pat w in
  clock w1 = S (clock w) ∧ sameButDisk w w1 ∧
  match err with
  | None => name ≠ "" ∧ fs w !! name = None
            ∧ fs w1 = <[name := mkFile [] (N.ldiff 384 (umask E))]> (fs w)
  | Some _ => name = "" ∧ fs w1 = fs w
  end.
Proof.
  unfold TempFile, sameButDisk.
  destruct (hasSlash pat); [simpl; tauto|].
  destruct (prefixAndSuffix pat) as [pre suf].
  destruct (fault E (clock w)); [simpl; tauto|].
  destruct (firstFree _ _ _ _) as [name|] eqn:Hf; [|simpl; tauto].
  simpl. repeat split; try reflexivity.
  - apply firstFree_name in Hf as [r ->]. apply joinPath_nonempty.
  - by apply firstFree_fresh in Hf.
Qed.


Lemma keepsFiles_refl (w w1 : World) : fs w1 = fs w → keepsFiles w w1.
Proof. intros H p _. by rewrite H. Qed.

Lemma keepsFiles_trans (w w1 w2 : World) :
  keepsFiles w w1 → keepsFiles w1 w2 → keepsFiles w w2.
Proof.
  intros H1 H2 p Hp. rewrite <- (H1 p Hp). apply H2. by rewrite (H1 p Hp).
Qed.

Lemma keepsFiles_insert (w w1 : World) tmp c :
  fs w !! tmp = None → fs w1 = <[tmp := c]> (fs w) → keepsFiles w w1.
Proof.
  intros Hfresh Hfs p [x Hp]. rewrite Hfs, lookup_insert_ne; [done|].
  intros ->. congruence.
Qed.

Lemma writeTempFile_cases dir prefix data (w : World) name err w1 :
  writeTempFile E dir prefix data w = ((name, err), w1) →
  sameButDisk w w1 ∧ keepsFiles w w1 ∧
  match err with
  | None => name ≠ "" ∧ fs w !! name = None
            ∧ fs w1 = <[name := mkFile data (N.ldiff 384 (umask E))]> (fs w)
  | Some _ =>
      name = ""
      ∧ match storeUnlink E dir prefix data w with
        | None => fs w1 = fs w
        | Some n =>
            (fault E n = None → fs w1 = fs w)
            ∧ (fault E n ≠ None → ∃ tmp, fs w !! tmp = None ∧ is_Some (fs w1 !! tmp))
        end
  end.
Proof.
  unfold writeTempFile, storeUnlink, bind.
  pose proof (TempFile_cases dir prefix w) as HT.
  destruct (TempFile E dir prefix w) as [[file terr] wt].
  destruct HT as (_ & Hsame & HT).
  destruct terr as [e|].
  { intros [= <- <- <-]. destruct HT as [_ HT].
    split; [done|]. split; [by apply keepsFiles_refl|done]. }
  destruct HT as (Hne & Hfresh & Hfs).
  unfold Write, Close, ret.
  assert (∀ part (wx wz : World) r,
            fs wx = alter (append_content part) file (fs wt) →
            clock wx = S (S (clock wt)) → sameButDisk w wx →
            Remove E file wx = (r, wz) →
            sameButDisk w wz ∧ keepsFiles w wz
            ∧ (fault E (S (S (clock wt))) = None → fs wz = fs w)
            ∧ (fault E (S (S (clock wt))) ≠ None →
               ∃ tmp, fs w !! tmp = None ∧ is_Some (fs wz !! tmp))) as Hfail.
  { intros part wx wz r Hx Hc Hsx. unfold Remove. rewrite Hc.
    destruct (fault E (S (S (clock wt)))) as [e3|]; intros [= _ <-]; cbn.
    - split; [exact Hsx|]. split.
      + eapply keepsFiles_insert; [exact Hfresh|].
        cbn. by rewrite Hx, Hfs, alter_insert_eq.
      + split; [done|]. intros _. exists file. split; [done|].
        cbn. rewrite Hx, Hfs, alter_insert_eq, lookup_insert_eq. eauto.
    - assert (delete file (fs wx) = fs w) as Hback
        by (by rewrite Hx, Hfs, alter_insert_eq, delete_insert_id).
      split; [exact Hsx|]. split; [by apply keepsFiles_refl|]. split; [done|].
      intros Hn. by destruct Hn. }
  destruct (fault E (clock wt)) as [e1|] eqn:F1; cbn [fst snd clock tick set_fs].
  - match goal with |- context [Remove E file ?x] =>
      destruct (Remove E file x) as [r wr] eqn:HR end.
    intros [= <- <- <-].
    eapply Hfail in HR as (? & ? & ? & ?); [|reflexivity|reflexivity|exact Hsame]. auto.
  - destruct (fault E (S (clock wt))) as [e2|] eqn:F2.
    + match goal with |- context [Remove E file ?x] =>
        destruct (Remove E file x) as [r wr] eqn:HR end.
      intros [= <- <- <-].
      eapply Hfail in HR as (? & ? & ? & ?); [|reflexivity|reflexivity|exact Hsame]. auto.
    + intros [= <- <- <-]. cbn. split; [exact Hsame|].
      rewrite Hfs, alter_insert_eq. split; [|done].
      eapply keepsFiles_insert; [exact Hfresh|]. cbn. by rewrite Hfs, alter_insert_eq.
Qed.

Lemma writeTempFile_ok_iff dir prefix data (w : World) :
  (∃ name w1, writeTempFile E dir prefix data w = ((name, None), w1))
  ↔ storedAndClosed E dir prefix data w.
Proof.
  unfold storedAndClosed, writeTempFile, bind, ret.
  destruct (TempFile E dir prefix w) as [[file terr] wt].
  destruct terr as [e|].
  { split; [intros (? & ? & [=]) | intros (? & ? & ? & ? & [=] & _)]. }
  destruct (Write E file data wt) as [werr ww] eqn:HW.
  destruct (Close E file ww) as [cerr wc] eqn:HC.
  split.
  - intros (name & w1 & H). exists file, wt, ww, wc.
    destruct werr, cerr; cbn [ret bind] in H;
      try (match type of H with context [Remove E file ?x] =>
             destruct (Remove E file x) end; discriminate).
    rewrite ?HW, ?HC. auto.
  - intros (name & w1 & w2 & w3 & [= <- <-] & H1 & H2).
    rewrite HW in H1. injection H1 as -> ->.
    rewrite HC in H2. injection H2 as -> ->. simpl. eauto.
Qed.


Lemma sameButDisk_trans (w w1 w2 : World) :
  sameButDisk w w1 → sameButDisk w1 w2 → sameButDisk w w2.
Proof. unfold sameButDisk. intuition congruence. Qed.

Lemma Remove_cases name (w : World) :
  let '(r, w1) := Remove E name w in
  sameButDisk w w1 ∧ clock w1 = S (clock w)
  ∧ (fs w1 = fs w ∨ fs w1 = delete name (fs w))
  ∧ (fault E (clock w) = None → fs w1 = delete name (fs w)).
Proof.
  unfold Remove, sameButDisk. destruct (fault E (clock w)); cbn; [|tauto].
  repeat split; auto. discriminate.
Qed.

Lemma keepsFiles_unlink (w wx wy : World) name :
  keepsFiles w wx → fs w !! name = None →
  fs wy = fs wx ∨ fs wy = delete name (fs wx) →
  keepsFiles w wy.
Proof.
  intros Hk Hfresh Hy p Hp. rewrite <- (Hk p Hp). destruct Hy as [->| ->]; [done|].
  rewrite lookup_delete_ne; [done|]. intros ->. rewrite Hfresh in Hp. by destruct Hp.
Qed.

Lemma diff_cases b1 b2 (w : World) :
  let '((data, err), w1) := diff E b1 b2 w in
  (keepsFiles w w1
   ∧ ((∀ n, n ∈ diffUnlinks E b1 b2 w → fault E n = None) → fs w1 = fs w))
  ∧ sameButDisk w w1 ∧
  match diffRun E b1 b2 w with
  | StoreFailed e => data = [] ∧ err = Some e
  | Invoked f1 f2 disk r =>
      data = output r
      ∧ err = (if Nat.ltb 0 (length (output r)) then None else cmd_error (status r))
      ∧ f1 ≠ f2
      ∧ disk !! f1 = Some (mkFile b1 (N.ldiff 384 (umask E)))
      ∧ disk !! f2 = Some (mkFile b2 (N.ldiff 384 (umask E)))
      ∧ fs w !! f1 = None ∧ fs w !! f2 = None
  end.
Proof.
  unfold diff, diffRun, diffUnlinks, bind.
  destruct (writeTempFile E "" "kfix" b1 w) as [[f1 err1] wa] eqn:H1.
  apply writeTempFile_cases in H1 as (Hs1 & Hk1 & H1).
  destruct err1 as [e|].
  { cbn. destruct H1 as [_ H1]. split; [|tauto]. split; [exact Hk1|].
    intros Hok. destruct (storeUnlink E "" "kfix" b1 w) as [n|]; [|exact H1].
    apply H1, Hok. cbn. by left. }
  destruct H1 as (_ & Hfresh1 & Hfs1).
  destruct (writeTempFile E "" "kfix" b2 wa) as [[f2 err2] wb] eqn:H2.
  apply writeTempFile_cases in H2 as (Hs2 & Hk2 & H2).
  destruct err2 as [e|].
  { destruct H2 as [_ H2]. unfold ret. cbn [fst snd].
    pose proof (Remove_cases f1 wb) as HR.
    destruct (Remove E f1 wb) as [r1 wc]. destruct HR as (Hs3 & _ & Hd & Hdel).
    split; [split|split; [|done]].
    - eapply keepsFiles_unlink; [|exact Hfresh1|exact Hd].
      by eapply keepsFiles_trans.
    - intros Hok. rewrite Hdel; [|apply Hok, elem_of_app; right; by left].
      assert (fs wb = fs wa) as ->.
      { destruct (storeUnlink E "" "kfix" b2 wa) as [n|]; [|exact H2].
        apply H2, Hok, elem_of_app. left. cbn. by left. }
      by rewrite Hfs1, delete_insert_id.
    - eapply sameButDisk_trans; [|exact Hs3]. by eapply sameButDisk_trans. }
  destruct H2 as (_ & Hfresh2 & Hfs2).
  assert (f1 ≠ f2) as Hne.
  { intros ->. rewrite Hfs1, lookup_insert_eq in Hfresh2. discriminate. }
  assert (fs wb !! f1 = Some (mkFile b1 (N.ldiff 384 (umask E)))
          ∧ fs wb !! f2 = Some (mkFile b2 (N.ldiff 384 (umask E)))
          ∧ fs w !! f2 = None) as (Hl1 & Hl2 & Hfresh2').
  { rewrite Hfs2, Hfs1. rewrite lookup_insert_eq, lookup_insert_ne, lookup_insert_eq by done.
    rewrite Hfs1, lookup_insert_ne in Hfresh2 by done. done. }
  unfold CombinedOutput, ret.
  set (r := command E (clock wb) (fs wb) "diff" ["-u"; f1; f2]).
  destruct (Nat.ltb 0 (length (output r))) eqn:Hlen; cbn [fst snd];
    (pose proof (Remove_cases f2 (tick wb)) as HR2;
     destruct (Remove E f2 (tick wb)) as [r2 wc];
     destruct HR2 as (Hs3 & Hc3 & Hd3 & Hdel3);
     pose proof (Remove_cases f1 wc) as HR1;
     destruct (Remove E f1 wc) as [r1 wd];
     destruct HR1 as (Hs4 & _ & Hd4 & Hdel4);
     cbn [fst snd clock tick fs] in *;
     split; [split|split];
     [ eapply keepsFiles_unlink; [|exact Hfresh1|exact Hd4];
       eapply keepsFiles_unlink; [|exact Hfresh2'|exact Hd3];
       by eapply keepsFiles_trans
     | intros Hok; rewrite Hdel4, Hdel3;
       [ rewrite Hfs2, delete_insert_id by done; by rewrite Hfs1, delete_insert_id
       | apply Hok; by left
       | rewrite Hc3; apply Hok; right; by left ]
     | eapply sameButDisk_trans; [|exact Hs4]; eapply sameButDisk_trans; [|exact Hs3];
       by eapply sameButDisk_trans
     | rewrite ?Hlen; tauto ]).
Qed.

End SystemFacts.

Section HandlerFacts.
Context {tree LoaderState : Type} (E : Env) (C : Collab tree LoaderState).
Local Abbreviation World := (World tree LoaderState).

Lemma readFile_cases name (w : World) src err w1 :
  readFile E name w = ((src, err), w1) →
  fs w1 = fs w ∧ sameButDisk w w1 ∧
  (err = None → ∃ f, fs w !! name = Some f ∧ content f = src).
Proof.
  unfold readFile, bind, Open, ReadAll, Close, ret, sameButDisk.
  destruct (fault E (clock w)); [intros [= <- <- <-]; simpl; intuition discriminate|].
  destruct (fs w !! name) as [f|] eqn:Hf; simpl;
    [|intros [= <- <- <-]; simpl; intuition discriminate].
  destruct (fault E (S (clock w))); simpl; rewrite ?Hf; simpl;
    intros [= <- <- <-]; simpl; intuition (try discriminate; eauto).
Qed.

Lemma handleFix_diff_cases (info : FileInfo tree) (w : World) :
  let '(r, w1) := handleFix E C (mkHandler true) info w in
  (keepsFiles w w1 ∧ ((∀ n, fault E n = None) → fs w1 = fs w)) ∧
  match r with
  | Some _ => stdout w1 = stdout w
  | None =>
      ∃ old newSrc f1 f2 disk t m,
        fs w !! info_Name info = Some old
        ∧ GofmtFile C (info_AST info) (loader w) = (newSrc, None)
        ∧ disk !! f1 = Some (mkFile (content old) m)
        ∧ disk !! f2 = Some (mkFile newSrc m)
        ∧ stdout w1 = (stdout w ++ list_byte_of_string (diffHeader (info_Name info))
                       ++ output (command E t disk "diff" ["-u"; f1; f2]))%list
  end.
Proof.
  unfold handleFix, bind.
  destruct (readFile E (info_Name info) w) as [[src rerr] wr] eqn:HR.
  apply readFile_cases in HR as (Hfs & Hsame & Hsrc).
  assert (keepsFiles w wr) as Hkr by (by apply keepsFiles_refl).
  destruct rerr as [e|]; [simpl; destruct Hsame; auto|].
  destruct (Hsrc eq_refl) as (old & Hold & <-).
  destruct (GofmtFile C (info_AST info) (loader wr)) as [newSrc gerr] eqn:HG.
  destruct gerr as [e|]; [simpl; destruct Hsame; auto|].
  simpl.
  pose proof (diff_cases E (content old) newSrc wr) as HD.
  destruct (diff E (content old) newSrc wr) as [[data derr] wd].
  destruct HD as ((Hkd & Hfsd) & Hsd & HD).
  assert (keepsFiles w wd ∧ ((∀ n, fault E n = None) → fs wd = fs w)) as Hdisk.
  { split; [by eapply keepsFiles_trans|]. intros Hok. rewrite Hfsd; [done|]. auto. }
  destruct derr as [e|]; simpl.
  { split; [exact Hdisk|]. destruct Hsame, Hsd. congruence. }
  split; [exact Hdisk|].
  destruct (diffRun E (content old) newSrc wr) as [e|f1 f2 disk r] eqn:Hrun.
  { destruct HD as [_ [=]]. }
  destruct HD as (-> & _ & _ & Hl1 & Hl2 & _).
  unfold diffRun in Hrun.
  destruct (writeTempFile E "" "kfix" (content old) wr) as [[g1 [?|]] wa]; [discriminate|].
  destruct (writeTempFile E "" "kfix" newSrc wa) as [[g2 [?|]] wb]; [discriminate|].
  injection Hrun as -> -> <- <-.
  exists old, newSrc, f1, f2, (fs wb), (clock wb), (N.ldiff 384 (umask E)).
  repeat split; auto.
  - destruct Hsame as (_ & _ & _ & _ & <-). exact HG.
  - destruct Hsame as (<- & _), Hsd as (-> & _). by rewrite <- app_assoc.
Qed.

End HandlerFacts.

(** ** The driver *)

Section DriverFacts.
Context {tree LoaderState : Type} (E : Env) (C : Collab tree LoaderState).
Local Abbreviation World := (World tree LoaderState).
Local Abbreviation IO := (IO tree LoaderState).
Local Abbreviation Fixer := (@Fixer tree LoaderState).
Local Abbreviation Package := (Package tree).

Lemma usageEntry_frame (w : World) f :
  fs (usageEntry C w f) = fs w ∧ allFixes (usageEntry C w f) = allFixes w
  ∧ ∃ more, stderr (usageEntry C w f) = (stderr w ++ more)%list.
Proof. unfold usageEntry, eprint. simpl. repeat split. rewrite <- app_assoc. eauto. Qed.

Lemma fold_usageEntry_frame l (w : World) :
  fs (fold_left (usageEntry C) l w) = fs w
  ∧ allFixes (fold_left (usageEntry C) l w) = allFixes w
  ∧ ∃ more, stderr (fold_left (usageEntry C) l w) = (stderr w ++ more)%list.
Proof.
  revert w. induction l as [|f l IH]; intros w; simpl.
  - repeat split. exists []. by rewrite app_nil_r.
  - destruct (IH (usageEntry C w f)) as (-> & -> & more & ->).
    destruct (usageEntry_frame w f) as (-> & -> & more' & ->).
    repeat split. rewrite <- app_assoc. eauto.
Qed.

Lemma usage_exits (w : World) :
  snd (usage C w) = 93%Z
  ∧ fs (fst (usage C w)) = fs w
  ∧ allFixes (fst (usage C w)) = sortByName (allFixes w)
  ∧ ∃ rest, stderr (fst (usage C w)) = (stderr w ++ Fprintf usageLine [] :: rest)%list.
Proof.
  unfold usage. cbn [fst snd].
  match goal with |- context [fold_left _ ?l ?w1] =>
    destruct (fold_usageEntry_frame l w1) as (-> & -> & more & ->) end.
  repeat split. simpl. rewrite <- !app_assoc. simpl. eauto.
Qed.

Variable engine : Fixer → Package → IO (option error).

Lemma setup_cases flags (w : World) :
  match setup E C flags w with
  | (w1, inl code) => fs w1 = fs w ∧ (code = 93%Z ∨ (code = 1%Z ∧ allFixes w1 = allFixes w))
  | (w1, inr (fx, args)) =>
      fs w1 = fs w ∧ allFixes w1 = allFixes w ∧ Fixes fx = allFixes w
      ∧ args ≠ [] ∧ ∃ d, flags = @Parsed d args
                         ∧ HandleFix fx = handleFix E C (mkHandler d)
  end.
Proof.
  unfold setup. destruct flags as [complaint|d args].
  - destruct complaint as [msg|];
      match goal with |- context [usage C ?w1] =>
        pose proof (usage_exits w1) as (Hc & Hfs & _); destruct (usage C w1) as [wu code] end;
      simpl in *; subst; auto.
  - destruct args as [|a args].
    + pose proof (usage_exits w) as (Hc & Hfs & _). destruct (usage C w) as [wu code].
      simpl in *; subst; auto.
    + unfold Getwd. destruct (fault E (clock w)); simpl; eauto 10.
Qed.

Lemma runAll_app fx pre post (w : World) :
  runAll C engine fx (pre ++ post) w =
  match runAll C engine fx pre w with
  | Some w1 => runAll C engine fx post w1
  | None => None
  end.
Proof.
  revert w. induction pre as [|a pre IH]; intros w; simpl; [done|].
  destruct (processArg C engine fx a w) as [[| |] w1]; auto.
Qed.

Lemma argLoop_app fx pre post (w w1 : World) :
  runAll C engine fx pre w = Some w1 →
  argLoop C engine fx (pre ++ post) w = argLoop C engine fx post w1.
Proof.
  revert w. induction pre as [|a pre IH]; intros w; simpl.
  - by intros [= ->].
  - destruct (processArg C engine fx a w) as [[| |] w2]; try discriminate. apply IH.
Qed.

Lemma runAll_done fx args (w w1 : World) :
  runAll C engine fx args w = Some w1 → argLoop C engine fx args w = (w1, 0%Z).
Proof.
  intros H. rewrite <- (app_nil_r args). by rewrite (argLoop_app _ _ _ _ _ H).
Qed.

Lemma processArg_import_failed fx a (w : World) l e :
  Import C a (fs w) (loader w) = (l, Some e) →
  processArg C engine fx a w
  = (ImportFailed e, logError e importMsg [("path", a)] (set_loader (fun _ => l) w)).
Proof. intros H. unfold processArg, bind, doImport. by rewrite H. Qed.

Lemma processArg_fixed fx a (w : World) l err w2 :
  Import C a (fs w) (loader w) = (l, None) →
  engine fx (PackageInfoFor C a l)
    (logInfo 1 "fixing package" [("package", ImportPath (PackageInfoFor C a l))]
       (set_loader (fun _ => l) w)) = (err, w2) →
  processArg C engine fx a w
  = match err with
    | Some e => (FixFailed e, eprint (Fprintf abortFormat [ArgS a; ArgE e]) w2)
    | None => (ArgDone, w2)
    end.
Proof.
  intros H1 H2. unfold processArg, bind, doImport. rewrite H1. simpl.
  rewrite H2. by destruct err.
Qed.

End DriverFacts.

(** ** The claims about the diff helper *)

Section DiffClaims.
Context {tree LoaderState : Type} (E : Env).
Local Abbreviation World := (World tree LoaderState).

Lemma cmd_error_None s : cmd_error s = None ↔ s = Exited 0.
Proof.
  destruct s as [c|e]; simpl; [|split; discriminate].
  destruct c; split; intros H; try discriminate; auto.
Qed.

Lemma length_pos_nonempty {A} (l : list A) : Nat.ltb 0 (length l) = true ↔ l ≠ [].
Proof. destruct l; simpl; split; intros H; try done. Qed.

(** C1 (as amended).  [diff] returns an error exactly when one of the two
    temporary files could not be stored (the utility is then not invoked
    and the data is empty), or the utility was invoked, gave no output at
    all and failed (a non-zero exit status or a failure to run).  Whenever
    the utility gave output, that output is returned with a nil error,
    whatever its exit status. *)
Theorem diff_error_rule (b1 b2 : bytes) (w : World) :
  let '(data, err) := fst (diff E b1 b2 w) in
  match diffRun E b1 b2 w with
  | StoreFailed e => data = [] ∧ err = Some e
  | Invoked f1 f2 disk r =>
      data = output r
      ∧ (output r ≠ [] → err = None)
      ∧ (err ≠ None ↔ output r = [] ∧ status r ≠ Exited 0)
  end.
Proof.
  pose proof (diff_cases E b1 b2 w) as H.
  destruct (diff E b1 b2 w) as [[data err] w1]. cbn [fst].
  destruct H as (_ & _ & H).
  destruct (diffRun E b1 b2 w) as [e|f1 f2 disk r]; [exact H|].
  destruct H as (-> & -> & _). split; [reflexivity|].
  destruct (Nat.ltb 0 (length (output r))) eqn:Hlen.
  - apply length_pos_nonempty in Hlen. split; [done|]. split; [done|]. tauto.
  - assert (output r = []) as Hout.
    { destruct (output r); [done | discriminate]. }
    split; [done|]. rewrite <- cmd_error_None. tauto.
Qed.

(** C4 (as amended).  On every path through [diff] each temporary file the
    call created is gone when it returns, and the disk ends as it began,
    provided the [os.Remove] calls the path makes succeed: whether both
    files were stored, the second could not be, or the utility failed.
    ([diff] discards the result of [os.Remove], so a file whose unlink is
    refused stays.)  Whatever the unlinks do, every file that was on the
    disk before the call is left as it was. *)
Theorem diff_removes_temp_files (b1 b2 : bytes) (w : World) :
  keepsFiles w (snd (diff E b1 b2 w))
  ∧ ((∀ n, n ∈ diffUnlinks E b1 b2 w → fault E n = None) →
     fs (snd (diff E b1 b2 w)) = fs w
     ∧ match diffRun E b1 b2 w with
       | StoreFailed _ => True
       | Invoked f1 f2 disk _ =>
           is_Some (disk !! f1) ∧ is_Some (disk !! f2)
           ∧ fs (snd (diff E b1 b2 w)) !! f1 = None
           ∧ fs (snd (diff E b1 b2 w)) !! f2 = None
       end).
Proof.
  pose proof (diff_cases E b1 b2 w) as H.
  destruct (diff E b1 b2 w) as [[data err] w1]. cbn [snd].
  destruct H as ((Hk & Hfs) & _ & H). split; [exact Hk|].
  intros Hok. specialize (Hfs Hok). split; [exact Hfs|].
  destruct (diffRun E b1 b2 w) as [e|f1 f2 disk r]; [exact I|].
  destruct H as (_ & _ & _ & H1 & H2 & H3 & H4).
  rewrite Hfs, H1, H2. eauto.
Qed.

(** C9 (as amended).  [writeTempFile] returns a nil error exactly when the
    file was created, took all of the data and was closed; the name it
    returns is then not empty and the disk holds the data under it.  In
    every other case it returns the empty name with an error; the disk is
    then as before, with no temporary file left, provided the [os.Remove]
    of the file it had created succeeds (its result is discarded: when
    the unlink is refused the file stays).  Files that were on the disk
    before are never touched. *)
Theorem writeTempFile_atomic (dir prefix : string) (data : bytes) (w : World) :
  let '((name, err), w1) := writeTempFile E dir prefix data w in
  (err = None ↔ storedAndClosed E dir prefix data w)
  ∧ keepsFiles w w1
  ∧ match err with
    | None => name ≠ "" ∧ fs w !! name = None
              ∧ fs w1 = <[name := mkFile data (N.ldiff 384 (umask E))]> (fs w)
    | Some _ =>
        name = ""
        ∧ match storeUnlink E dir prefix data w with
          | None => fs w1 = fs w
          | Some n =>
              (fault E n = None → fs w1 = fs w)
              ∧ (fault E n ≠ None →
                 ∃ tmp, fs w !! tmp = None ∧ is_Some (fs w1 !! tmp))
          end
    end.
Proof.
  pose proof (writeTempFile_ok_iff E dir prefix data w) as Hiff.
  destruct (writeTempFile E dir prefix data w) as [[name err] w1] eqn:H.
  split.
  - rewrite <- Hiff. split.
    + intros ->. eauto.
    + intros (n & w2 & [= _ <- _]). reflexivity.
  - apply writeTempFile_cases in H as (_ & Hk & H). by split.
Qed.

End DiffClaims.

(** ** The claims about the handler and the driver *)

Section HandlerClaims.
Context {tree LoaderState : Type} (E : Env) (C : Collab tree LoaderState).
Local Abbreviation World := (World tree LoaderState).

Lemma WriteFile_ok name data prm (w w1 : World) :
  WriteFile E name data prm w = (None, w1) →
  fs w1 = <[name := mkFile data
                      match fs w !! name with
                      | Some old => perm old
                      | None => N.ldiff prm (umask E)
                      end]> (fs w).
Proof.
  unfold WriteFile, bind, OpenFileTrunc, Write, Close, ret.
  destruct (fault E (clock w)); [discriminate|]. simpl.
  destruct (fault E (S (clock w))); [discriminate|]. simpl.
  destruct (fault E (S (S (clock w)))); [discriminate|].
  intros [= <-]. simpl. by rewrite alter_insert_eq.
Qed.

Lemma handleFix_steps_read (info : FileInfo tree) (w : World) :
  fs w !! info_Name info = None →
  fs (snd (handleFix E C (mkHandler true) info w)) = fs w.
Proof.
  intros Hn. unfold handleFix, bind.
  destruct (readFile E (info_Name info) w) as [[src [e|]] wr] eqn:HR;
    apply readFile_cases in HR as (Hfs & _ & Hok).
  - exact Hfs.
  - destruct (Hok eq_refl) as (f & Hf & _). congruence.
Qed.

(** C5.  In diff mode [handleFix] never writes to a file that exists,
    whatever becomes of reading, formatting, the diff utility or the
    unlinking of the temporary files; in particular the file under the
    original path keeps its bytes.  When no system call fails the whole
    disk is as it was. *)
Theorem diff_mode_leaves_disk (info : FileInfo tree) (w : World) :
  keepsFiles w (snd (handleFix E C (mkHandler true) info w))
  ∧ fs (snd (handleFix E C (mkHandler true) info w)) !! info_Name info
    = fs w !! info_Name info
  ∧ ((∀ n, fault E n = None) →
     fs (snd (handleFix E C (mkHandler true) info w)) = fs w).
Proof.
  pose proof (handleFix_diff_cases E C info w) as H.
  pose proof (handleFix_steps_read info w) as HR.
  destruct (handleFix E C (mkHandler true) info w) as [r w1].
  cbn [snd] in *. destruct H as [[Hk Hall] _]. split; [exact Hk|]. split; [|exact Hall].
  destruct (fs w !! info_Name info) as [f|] eqn:Hf.
  - rewrite <- Hf. apply Hk. rewrite Hf. eauto.
  - by rewrite (HR eq_refl), Hf.
Qed.

(** C8 (as amended).  In diff mode a file that is handled without error
    adds to the standard output exactly one header line, [diff], the
    original path and [filepath.Join("fixed", path)], followed by the
    output of the diff utility run on the original and the reformatted
    bytes, unchanged; a file whose handling fails adds nothing.  For a
    clean relative path the second name of the header is the path behind
    [fixed/]. *)
Theorem diff_mode_output (info : FileInfo tree) (w : World) :
  (let '(r, w1) := handleFix E C (mkHandler true) info w in
   match r with
   | Some _ => stdout w1 = stdout w
   | None =>
       ∃ old newSrc f1 f2 disk t m,
         fs w !! info_Name info = Some old
         ∧ GofmtFile C (info_AST info) (loader w) = (newSrc, None)
         ∧ disk !! f1 = Some (mkFile (content old) m)
         ∧ disk !! f2 = Some (mkFile newSrc m)
         ∧ stdout w1 = (stdout w ++ list_byte_of_string (diffHeader (info_Name info))
                        ++ output (command E t disk "diff" ["-u"; f1; f2]))%list
   end)
  ∧ (isCleanRelative (info_Name info) = true →
     diffHeader (info_Name info) = specHeader (info_Name info)).
Proof.
  split.
  - pose proof (handleFix_diff_cases E C info w) as H.
    destruct (handleFix E C (mkHandler true) info w) as [r w1].
    by destruct H as [_ H].
  - intros Hc. unfold diffHeader, specHeader. by rewrite Join_fixed_clean.
Qed.

End HandlerClaims.

Section DriverClaims.
Context {tree LoaderState : Type} (E : Env) (C : Collab tree LoaderState).
Local Abbreviation World := (World tree LoaderState).
Local Abbreviation IO := (IO tree LoaderState).
Local Abbreviation Fixer := (@Fixer tree LoaderState).
Local Abbreviation Package := (Package tree).

Lemma applyFixes_app cap (l1 l2 : list (Fix tree)) t :
  applyFixes cap (l1 ++ l2)%list t =
  match applyFixes cap l1 t with
  | inl t1 => applyFixes cap l2 t1
  | inr e => inr e
  end.
Proof.
  revert t. induction l1 as [|f l1 IH]; intros t; simpl; [done|].
  destruct (fixLoop cap f t); auto.
Qed.

Lemma argLoop_ext (engine1 engine2 : Fixer → Package → IO (option error)) fx args (w : World) :
  (∀ pkg w1, engine1 fx pkg w1 = engine2 fx pkg w1) →
  argLoop C engine1 fx args w = argLoop C engine2 fx args w.
Proof.
  intros Hext. revert w. induction args as [|a args IH]; intros w; simpl; [done|].
  assert (processArg C engine1 fx a w = processArg C engine2 fx a w) as ->.
  { unfold processArg, bind. destruct (doImport C a w) as [[e|] w1]; [done|].
    by rewrite Hext. }
  destruct (processArg C engine2 fx a w) as [[| |] w1]; auto.
Qed.

(** C2.  The engine as specified works through the fixes front to back,
    so a list is applied in the order it is handed over.  [usage], the
    only place that sorts [allFixes] by name, ends the process with status
    93.  A run that gets as far as the engine hands it [allFixes] as it
    was when the run began, and lets every engine call see just that
    list; a setup that leaves [allFixes] in another order has exited with
    93. *)
Theorem fixes_applied_in_supplied_order :
  (∀ cap (l1 l2 : list (Fix tree)) t,
     applyFixes cap (l1 ++ l2)%list t =
     match applyFixes cap l1 t with
     | inl t1 => applyFixes cap l2 t1
     | inr e => inr e
     end)
  ∧ (∀ w : World, snd (usage C w) = 93%Z
                  ∧ allFixes (fst (usage C w)) = sortByName (allFixes w))
  ∧ (∀ flags (w : World),
       allFixes (fst (setup E C flags w)) = allFixes w
       ∨ snd (setup E C flags w) = inl 93%Z)
  ∧ (∀ flags (w w1 : World) fx args,
       setup E C flags w = (w1, inr (fx, args)) →
       Fixes fx = allFixes w ∧ allFixes w1 = allFixes w)
  ∧ (∀ engine flags (w : World),
       main E C engine flags w
       = main E C (fun fx => engine (mkFixer (allFixes w) (HandleFix fx))) flags w).
Proof.
  split; [exact applyFixes_app|]. split; [|split; [|split]].
  - intros w. pose proof (usage_exits C w). tauto.
  - intros flags w. pose proof (setup_cases E C flags w) as Hs.
    destruct (setup E C flags w) as [w1 [code|[fx args]]]; simpl.
    + destruct Hs as (_ & [-> | [_ ->]]); auto.
    + left. tauto.
  - intros flags w w1 fx args H. pose proof (setup_cases E C flags w) as Hs.
    rewrite H in Hs. tauto.
  - intros engine flags w. unfold main.
    pose proof (setup_cases E C flags w) as Hs.
    destruct (setup E C flags w) as [w1 [code|[fx args]]]; [done|].
    destruct Hs as (_ & _ & Hfx & _).
    apply argLoop_ext. intros pkg w2. destruct fx as [fixes h].
    simpl in *. by rewrite Hfx.
Qed.

Variable engine : Fixer → Package → IO (option error).

(** C3.  The exit status is 93 when no path argument is given, after the
    usage text has gone to the error stream; 1 when an argument fails to
    resolve, after an error naming the path has been logged; 5 when the
    engine fails on a package, after a message with the argument and the
    cause has gone to the error stream; 0 when every argument runs to
    completion. *)
Theorem exit_codes :
  (∀ d (w : World),
     snd (main E C engine (Parsed d []) w) = 93%Z
     ∧ ∃ rest, stderr (fst (main E C engine (Parsed d []) w))
               = (stderr w ++ Fprintf usageLine [] :: rest)%list)
  ∧ (∀ flags (w w0 w1 : World) fx pre a post l e,
       setup E C flags w = (w0, inr (fx, (pre ++ a :: post)%list)) →
       runAll C engine fx pre w0 = Some w1 →
       Import C a (fs w1) (loader w1) = (l, Some e) →
       snd (main E C engine flags w) = 1%Z
       ∧ logs (fst (main E C engine flags w))
         = (logs w1 ++ [LogError e importMsg [("path", a)]])%list)
  ∧ (∀ flags (w w0 w1 w2 : World) fx pre a post l e,
       setup E C flags w = (w0, inr (fx, (pre ++ a :: post)%list)) →
       runAll C engine fx pre w0 = Some w1 →
       Import C a (fs w1) (loader w1) = (l, None) →
       engine fx (PackageInfoFor C a l)
         (logInfo 1 "fixing package" [("package", ImportPath (PackageInfoFor C a l))]
            (set_loader (fun _ => l) w1)) = (Some e, w2) →
       snd (main E C engine flags w) = 5%Z
       ∧ stderr (fst (main E C engine flags w))
         = (stderr w2 ++ [Fprintf abortFormat [ArgS a; ArgE e]])%list)
  ∧ (∀ flags (w w0 w1 : World) fx args,
       setup E C flags w = (w0, inr (fx, args)) →
       runAll C engine fx args w0 = Some w1 →
       main E C engine flags w = (w1, 0%Z)).
Proof.
  split; [|split; [|split]].
  - intros d w. unfold main, setup.
    pose proof (usage_exits C w) as (Hc & _ & _ & Hr).
    destruct (usage C w) as [wu code]. simpl in *. auto.
  - intros flags w w0 w1 fx pre a post l e Hs Hpre Himp.
    unfold main. rewrite Hs, (argLoop_app C engine _ _ _ _ _ Hpre). simpl.
    by rewrite (processArg_import_failed C engine _ _ _ _ _ Himp).
  - intros flags w w0 w1 w2 fx pre a post l e Hs Hpre Himp Hfix.
    unfold main. rewrite Hs, (argLoop_app C engine _ _ _ _ _ Hpre). simpl.
    by rewrite (processArg_fixed C engine _ _ _ _ _ _ Himp Hfix).
  - intros flags w w0 w1 fx args Hs Hall.
    unfold main. rewrite Hs. by apply runAll_done.
Qed.

(** C6 (as amended).  When an argument fails to resolve, the process logs
    an error naming that path and exits with status 1, and that argument
    changes no file: the disk is as the arguments before it left it, and
    as it was at the start when the argument is the first one. *)
Theorem unresolved_argument_exit flags (w w0 w1 : World) fx pre a post l e :
  setup E C flags w = (w0, inr (fx, (pre ++ a :: post)%list)) →
  runAll C engine fx pre w0 = Some w1 →
  Import C a (fs w1) (loader w1) = (l, Some e) →
  snd (main E C engine flags w) = 1%Z
  ∧ logs (fst (main E C engine flags w))
    = (logs w1 ++ [LogError e importMsg [("path", a)]])%list
  ∧ fs (fst (main E C engine flags w)) = fs w1
  ∧ (pre = [] → fs (fst (main E C engine flags w)) = fs w).
Proof.
  intros Hs Hpre Himp.
  pose proof (setup_cases E C flags w) as Hc. rewrite Hs in Hc.
  destruct Hc as (Hfs0 & _).
  unfold main. rewrite Hs, (argLoop_app C engine _ _ _ _ _ Hpre). simpl.
  rewrite (processArg_import_failed C engine _ _ _ _ _ Himp). simpl.
  repeat split. intros ->. simpl in Hpre. injection Hpre as <-. exact Hfs0.
Qed.

(** C7.  After the setup [main] is the loop over the path arguments, which
    works through them in command-line order: a run whose first arguments
    complete goes on from the world they left.  Once the engine fails on a
    package the process exits with status 5 whatever arguments follow; the
    final world is the one the failing engine call returned plus the
    message on the error stream, so no later argument is looked at and
    nothing written so far is undone. *)
Theorem first_fix_failure_stops_run :
  (∀ flags (w w0 : World) fx args,
     setup E C flags w = (w0, inr (fx, args)) →
     main E C engine flags w = argLoop C engine fx args w0)
  ∧ (∀ fx pre post (w w1 : World),
       runAll C engine fx pre w = Some w1 →
       argLoop C engine fx (pre ++ post)%list w = argLoop C engine fx post w1)
  ∧ (∀ flags (w w0 w1 w2 : World) fx pre a post l e,
       setup E C flags w = (w0, inr (fx, (pre ++ a :: post)%list)) →
       runAll C engine fx pre w0 = Some w1 →
       Import C a (fs w1) (loader w1) = (l, None) →
       engine fx (PackageInfoFor C a l)
         (logInfo 1 "fixing package" [("package", ImportPath (PackageInfoFor C a l))]
            (set_loader (fun _ => l) w1)) = (Some e, w2) →
       main E C engine flags w
       = (eprint (Fprintf abortFormat [ArgS a; ArgE e]) w2, 5%Z)
       ∧ fs (fst (main E C engine flags w)) = fs w2).
Proof.
  split; [|split].
  - intros flags w w0 fx args Hs. unfold main. by rewrite Hs.
  - intros fx pre post w w1. apply argLoop_app.
  - intros flags w w0 w1 w2 fx pre a post l e Hs Hpre Himp Hfix.
    unfold main. rewrite Hs, (argLoop_app C engine _ _ _ _ _ Hpre). simpl.
    by rewrite (processArg_fixed C engine _ _ _ _ _ _ Himp Hfix).
Qed.

End DriverClaims.

(** ** Sample runs *)

Section Runs.
Import Sample.

(** Closed goals about the sample installation are settled by running
    the program. *)
Ltac by_computation := vm_compute; reflexivity.

Local Abbreviation run flags := (main env collab (FixPackage 10) flags w0).

(** Counterexample to C1 as stated: with an unwritable temporary directory
    [diff] returns an error although the utility was never invoked, let
    alone invoked without output. *)
Lemma diff_error_without_invocation :
  ¬ (snd (fst (diff envNoTemp [] [] w0)) ≠ None
     ↔ ∃ f1 f2 disk r,
         diffRun envNoTemp [] [] w0 = Invoked f1 f2 disk r
         ∧ output r = [] ∧ status r ≠ Exited 0).
Proof.
  intros [H _].
  destruct H as (f1 & f2 & disk & r & Hrun & _); [vm_compute; discriminate|].
  vm_compute in Hrun. discriminate Hrun.
Qed.

(** Counterexample to C6 as stated: the second argument fails to resolve
    and the process exits with status 1, yet the file of the first
    argument has been rewritten. *)
Lemma unresolved_argument_after_write :
  snd (run (Parsed false ["good"; "bad"])) = 1%Z
  ∧ (∀ disk l, snd (Import collab "bad" disk l) = Some (ErrMsg "cannot find package"))
  ∧ fs w0 !! "good/a.go" = Some (mkFile (repeat "x"%byte 3) 420)
  ∧ fs (fst (run (Parsed false ["good"; "bad"]))) !! "good/a.go"
    = Some (mkFile (repeat "x"%byte 12) 420)
  ∧ fs (fst (run (Parsed false ["good"; "bad"]))) ≠ fs w0.
Proof.
  assert (fs (fst (run (Parsed false ["good"; "bad"]))) !! "good/a.go"
          = Some (mkFile (repeat "x"%byte 12) 420)) as H by by_computation.
  split; [vm_compute; reflexivity|].
  split; [intros disk l; reflexivity|].
  split; [vm_compute; reflexivity|].
  split; [exact H|].
  intros Heq. rewrite Heq in H. vm_compute in H. discriminate H.
Qed.

(** Counterexample to C8 as stated: for a file named by an absolute path
    the header's second name is not the path behind [fixed/]. *)
Lemma header_of_absolute_path :
  let '(r, w1) := handleFix env collab (mkHandler true) (mkInfo "/src/a.go" 5) wAbs in
  r = None
  ∧ stdout w1 = (list_byte_of_string ("diff /src/a.go fixed/src/a.go" +:+ newline)
                 ++ repeat "x"%byte 8)%list
  ∧ ¬ ∃ body, stdout w1
              = (stdout wAbs ++ list_byte_of_string (specHeader "/src/a.go") ++ body)%list.
Proof.
  vm_compute. split; [reflexivity|]. split; [reflexivity|].
  intros [body H]. discriminate H.
Qed.

(** The sample run hands the engine [allFixes] unsorted, and the engine's
    result follows that order, not the order by name. *)
Lemma fixes_applied_in_supplied_order_witness :
  Fixes fixer0 = allFixes w0
  ∧ allFixes wSetup = [double; incr; picky]
  ∧ applyFixes 10 ([double] ++ [incr]) 3 = inl 12
  ∧ applyFixes 10 (sortByName [double; incr]) 3 = inl 8.
Proof.
  destruct (fixes_applied_in_supplied_order env collab) as (Happ & _ & _ & Hset & _).
  assert (setup env collab (Parsed false ["good"]) w0 = (wSetup, inr (fixer0, ["good"])))
    as Hs by by_computation.
  destruct (Hset (Parsed false ["good"]) w0 wSetup fixer0 ["good"] Hs) as [H1 H2].
  split; [exact H1|]. split; [exact H2|]. split; [|reflexivity].
  rewrite (Happ 10 [double] [incr] 3). reflexivity.
Defined.

(** The four exit statuses on sample runs. *)
Lemma exit_codes_witness :
  snd (run (Parsed false [])) = 93%Z
  ∧ snd (run (Parsed false ["good"; "bad"; "good"])) = 1%Z
  ∧ snd (run (Parsed false ["good"; "broken"; "good"])) = 5%Z
  ∧ run (Parsed false ["good"]) = (wGood, 0%Z).
Proof.
  destruct (exit_codes env collab (FixPackage 10)) as (H93 & H1 & H5 & H0).
  assert (runAll collab (FixPackage 10) fixer0 ["good"] wSetup = Some wGood) as Hgood
    by by_computation.
  split; [apply (H93 false w0)|].
  split; [|split].
  - refine (proj1 (H1 (Parsed false ["good"; "bad"; "good"]) w0 wSetup wGood fixer0
                      ["good"] "bad" ["good"] (loader wGood)
                      (ErrMsg "cannot find package") _ Hgood _));
      by_computation.
  - refine (proj1 (H5 (Parsed false ["good"; "broken"; "good"]) w0 wSetup wGood wBroken fixer0
                      ["good"] "broken" ["good"] ("broken" :: loader wGood)
                      (Wrapped "broken/b.go: picky: " (ErrMsg "unsupported construct"))
                      _ Hgood _ _));
      by_computation.
  - apply (H0 (Parsed false ["good"]) w0 wSetup wGood fixer0 ["good"]);
      [by_computation | exact Hgood].
Defined.

(** An unresolved argument after a rewritten package, and as the first
    argument. *)
Lemma unresolved_argument_exit_witness :
  snd (run (Parsed false ["good"; "bad"])) = 1%Z
  ∧ logs (fst (run (Parsed false ["good"; "bad"])))
    = (logs wGood ++ [LogError (ErrMsg "cannot find package") importMsg [("path", "bad")]])%list
  ∧ fs (fst (run (Parsed false ["good"; "bad"]))) = fs wGood
  ∧ fs (fst (run (Parsed false ["bad"; "good"]))) = fs w0.
Proof.
  assert (setup env collab (Parsed false ["good"; "bad"]) w0
          = (wSetup, inr (fixer0, (["good"] ++ "bad" :: [])%list))) as Hs1
    by by_computation.
  assert (runAll collab (FixPackage 10) fixer0 ["good"] wSetup = Some wGood) as Hgood
    by by_computation.
  assert (Import collab "bad" (fs wGood) (loader wGood)
          = (loader wGood, Some (ErrMsg "cannot find package"))) as Hbad1
    by by_computation.
  assert (setup env collab (Parsed false ["bad"; "good"]) w0
          = (wSetup, inr (fixer0, ([] ++ "bad" :: ["good"])%list))) as Hs2
    by by_computation.
  assert (Import collab "bad" (fs wSetup) (loader wSetup)
          = (loader wSetup, Some (ErrMsg "cannot find package"))) as Hbad2
    by by_computation.
  destruct (unresolved_argument_exit env collab (FixPackage 10) _ _ _ _ _ _ _ _ _ _
              Hs1 Hgood Hbad1) as (H1 & H2 & H3 & _).
  destruct (unresolved_argument_exit env collab (FixPackage 10) _ _ _ _ _ _ _ _ _ _
              Hs2 eq_refl Hbad2) as (_ & _ & _ & H4).
  split; [exact H1|]. split; [exact H2|]. split; [exact H3|]. exact (H4 eq_refl).
Defined.

(** A failing package in the middle of the command line. *)
Lemma first_fix_failure_stops_run_witness :
  run (Parsed false ["good"; "broken"; "good"; "bad"])
  = (eprint (Fprintf abortFormat
               [ArgS "broken";
                ArgE (Wrapped "broken/b.go: picky: " (ErrMsg "unsupported construct"))])
       wBroken, 5%Z)
  ∧ fs (fst (run (Parsed false ["good"; "broken"; "good"; "bad"])))
    = <["broken/a.go" := mkFile (repeat "x"%byte 10) 420]> (fs wGood)
  ∧ loader wBroken = ["broken"; "good"; "/home/dev"].
Proof.
  destruct (first_fix_failure_stops_run env collab (FixPackage 10)) as (_ & _ & Hstop).
  assert (setup env collab (Parsed false ["good"; "broken"; "good"; "bad"]) w0
          = (wSetup, inr (fixer0, (["good"] ++ "broken" :: ["good"; "bad"])%list))) as Hs
    by by_computation.
  assert (runAll collab (FixPackage 10) fixer0 ["good"] wSetup = Some wGood) as Hgood
    by by_computation.
  assert (Import collab "broken" (fs wGood) (loader wGood)
          = ("broken" :: loader wGood, None)) as Himp
    by by_computation.
  assert (FixPackage 10 fixer0 (PackageInfoFor collab "broken" ("broken" :: loader wGood))
            (logInfo 1 "fixing package"
               [("package", ImportPath (PackageInfoFor collab "broken" ("broken" :: loader wGood)))]
               (set_loader (fun _ => "broken" :: loader wGood) wGood))
          = (Some (Wrapped "broken/b.go: picky: " (ErrMsg "unsupported construct")), wBroken))
    as Hfix by by_computation.
  destruct (Hstop _ _ _ _ _ _ _ _ _ _ _ Hs Hgood Himp Hfix) as (H1 & H2).
  split; [exact H1|].
  split; [refine (eq_trans H2 _); by_computation|].
  by_computation.
Defined.

(** The header of a clean relative path. *)
Lemma diff_mode_output_witness :
  diffHeader "good/a.go" = "diff good/a.go fixed/good/a.go" +:+ newline.
Proof.
  destruct (diff_mode_output env collab (mkInfo "good/a.go" 12) w0) as [_ H].
  assert (isCleanRelative "good/a.go" = true) as Hc by by_computation.
  transitivity (specHeader "good/a.go"); [exact (H Hc) | vm_compute; reflexivity].
Defined.

(** The paths of [diff] that end in an error leave no file behind either. *)
Example diff_without_tool :
  fst (diff envNoDiff [x01]%byte [x02]%byte w0)
  = ([], Some (ErrMsg "executable file not found in $PATH"))
  ∧ fs (snd (diff envNoDiff [x01]%byte [x02]%byte w0)) = fs w0.
Proof. split; by_computation. Qed.

Example diff_short_write :
  fst (diff envShortWrite [x01; x02; x03]%byte [x02]%byte w0)
  = ([], Some (ErrMsg "no space left on device"))
  ∧ fs (snd (diff envShortWrite [x01; x02; x03]%byte [x02]%byte w0)) = fs w0.
Proof. split; by_computation. Qed.

Example diff_differing_files :
  fst (diff env [x01]%byte [x02]%byte w0) = ([x01; x02]%byte, None)
  ∧ fst (diff env [x01]%byte [x01]%byte w0) = ([], None).
Proof. split; by_computation. Qed.

(** The engine stops a fix that never settles. *)
Example restless_is_capped :
  applyFixes 10 [restless] 0 = inr ("restless", errIterationCap).
Proof. reflexivity. Qed.

End Runs.

(** * Further facts

    ** The order of the fixes *)

Section OrderFacts.
Context {tree : Type}.
Local Abbreviation Fix := (Fix tree).

Lemma ascii_compare_lt_trans a b c :
  Ascii.compare a b = Lt → Ascii.compare b c = Lt → Ascii.compare a c = Lt.
Proof.
  unfold Ascii.compare. rewrite !N.compare_lt_iff. apply N.lt_trans.
Qed.

Lemma string_compare_lt_trans a b c :
  String.compare a b = Lt → String.compare b c = Lt → String.compare a c = Lt.
Proof.
  revert b c. induction a as [|x a IH]; intros [|y b] [|z c]; simpl; try done.
  destruct (Ascii.compare x y) eqn:Hxy; try done.
  - apply Ascii.compare_eq_iff in Hxy as ->.
    destruct (Ascii.compare y z); try done. apply IH.
  - destruct (Ascii.compare y z) eqn:Hyz; try done.
    + apply Ascii.compare_eq_iff in Hyz as <-. by rewrite Hxy.
    + by rewrite (ascii_compare_lt_trans _ _ _ Hxy Hyz).
Qed.

Lemma string_compare_refl a : String.compare a a = Eq.
Proof.
  induction a as [|x a IH]; simpl; [done|].
  unfold Ascii.compare. by rewrite N.compare_refl.
Qed.

Lemma ltb_lt a b : String.ltb a b = true ↔ String.compare a b = Lt.
Proof. unfold String.ltb. destruct (String.compare a b); split; congruence. Qed.

Lemma Less_irrefl (f : Fix) : Less f f = false.
Proof. unfold Less, String.ltb. by rewrite string_compare_refl. Qed.

Lemma Less_trans (f g h : Fix) : Less f g = true → Less g h = true → Less f h = true.
Proof. unfold Less. rewrite !ltb_lt. apply string_compare_lt_trans. Qed.

Lemma Less_asym (f g : Fix) : Less f g = true → Less g f = false.
Proof.
  intros H. destruct (Less g f) eqn:H2; [|done].
  pose proof (Less_trans _ _ _ H H2) as H3. by rewrite Less_irrefl in H3.
Qed.

Lemma notLess_trans (f g h : Fix) :
  Less g f = false → Less h g = false → Less h f = false.
Proof.
  unfold Less, String.ltb. intros H1 H2.
  destruct (String.compare (fix_Name h) (fix_Name f)) eqn:H3; try done.
  exfalso.
  destruct (String.compare (fix_Name g) (fix_Name f)) eqn:Hgf; try done.
  - apply String.compare_eq_iff in Hgf. rewrite Hgf, H3 in H2. done.
  - destruct (String.compare (fix_Name h) (fix_Name g)) eqn:Hhg; try done.
    + apply String.compare_eq_iff in Hhg. rewrite Hhg, Hgf in H3. done.
    + rewrite String.compare_antisym in Hgf. rewrite String.compare_antisym in Hhg.
      destruct (String.compare (fix_Name f) (fix_Name g)) eqn:A; try done.
      destruct (String.compare (fix_Name g) (fix_Name h)) eqn:B; try done.
      pose proof (string_compare_lt_trans _ _ _ A B) as Hfh.
      rewrite String.compare_antisym, Hfh in H3. done.
Qed.

Lemma insertByName_perm (f : Fix) l : insertByName f l ≡ₚ f :: l.
Proof.
  induction l as [|g l IH]; simpl; [done|].
  destruct (Less g f); [|done]. rewrite IH. apply Permutation_swap.
Qed.

Lemma sortByName_perm (l : list Fix) : sortByName l ≡ₚ l.
Proof.
  induction l as [|f l IH]; simpl; [done|].
  rewrite insertByName_perm. by rewrite IH.
Qed.

Lemma insertByName_sorted (f : Fix) l :
  Sorted nameLe l → Sorted nameLe (insertByName f l).
Proof.
  induction l as [|g l IH]; intros Hs; simpl.
  - repeat constructor.
  - destruct (Less g f) eqn:Hgf.
    + inversion Hs as [|? ? Hl Hhd]; subst. constructor; [by apply IH|].
      destruct l as [|h l]; simpl.
      * constructor. unfold nameLe. by apply Less_asym.
      * destruct (Less h f); constructor.
        -- by inversion Hhd.
        -- unfold nameLe. by apply Less_asym.
    + constructor; [done|]. by constructor.
Qed.

Lemma sortByName_sorted (l : list Fix) : Sorted nameLe (sortByName l).
Proof.
  induction l as [|f l IH]; simpl; [constructor|]. by apply insertByName_sorted.
Qed.

Lemma nameLe_trans : Relations_1.Transitive (@nameLe tree).
Proof. intros f g h H1 H2. unfold nameLe in *. by apply (notLess_trans _ g). Qed.

Lemma sortByName_strongly_sorted (l : list Fix) : StronglySorted nameLe (sortByName l).
Proof. apply Sorted_StronglySorted; [apply nameLe_trans | apply sortByName_sorted]. Qed.

Lemma sortByName_sorted_id (l : list Fix) :
  Sorted nameLe l → sortByName l = l.
Proof.
  induction l as [|f l IH]; intros Hs; [done|].
  inversion Hs as [|? ? Hl Hhd]; subst. simpl. rewrite IH by done.
  destruct l as [|g l]; [done|]. simpl. inversion Hhd as [|? ? Hfg]; subst.
  unfold nameLe in Hfg. by rewrite Hfg.
Qed.

(** X3.  [byName.Less] is a strict order on the fixes: no fix is less than
    itself, two fixes are never less than each other, the relation is
    transitive, and two fixes neither of which is less than the other have
    the same name. *)
Theorem Less_strict_order (f g h : Fix) :
  Less f f = false
  ∧ (Less f g = true → Less g f = false)
  ∧ (Less f g = true → Less g h = true → Less f h = true)
  ∧ (Less f g = false → Less g f = false → fix_Name f = fix_Name g).
Proof.
  split; [apply Less_irrefl|]. split; [apply Less_asym|]. split; [apply Less_trans|].
  unfold Less, String.ltb. intros H1 H2.
  destruct (String.compare (fix_Name f) (fix_Name g)) eqn:Hc; try done.
  - by apply String.compare_eq_iff.
  - rewrite String.compare_antisym, Hc in H2. done.
Qed.

(** X1.  Sorting by name, as [usage] does with [sort.Sort(byName(allFixes))],
    loses and duplicates no fix: the result is a permutation of the list.
    It is in name order (no fix stands before one with a smaller name),
    and sorting it again changes nothing. *)
Theorem sortByName_sorts (l : list Fix) :
  sortByName l ≡ₚ l
  ∧ StronglySorted nameLe (sortByName l)
  ∧ sortByName (sortByName l) = sortByName l.
Proof.
  split; [apply sortByName_perm|]. split; [apply sortByName_strongly_sorted|].
  apply sortByName_sorted_id, sortByName_sorted.
Qed.

(** X2.  A list that already is in name order is left as it is by the
    sort; in particular a list of one fix. *)
Theorem sortByName_keeps_sorted (l : list Fix) :
  Sorted nameLe l → sortByName l = l.
Proof. apply sortByName_sorted_id. Qed.

End OrderFacts.

Section SwapFacts.
Context {tree : Type}.
Local Abbreviation Fix := (Fix tree).

Lemma at_index_Some (f : list Fix) i a :
  at_index f i = Some a → (0 ≤ i < Len f)%Z ∧ f !! Z.to_nat i = Some a.
Proof.
  unfold at_index, Len. destruct (i <? 0)%Z eqn:Hi; [done|].
  intros H. split; [|done]. apply Z.ltb_ge in Hi.
  apply lookup_lt_Some in H. lia.
Qed.

Lemma at_index_is_Some (f : list Fix) i :
  is_Some (at_index f i) ↔ (0 ≤ i < Len f)%Z.
Proof.
  split.
  - intros [a H]. by apply at_index_Some in H as [? _].
  - intros [H0 H1]. unfold at_index, Len in *.
    destruct (i <? 0)%Z eqn:Hi; [apply Z.ltb_lt in Hi; lia|].
    apply lookup_lt_is_Some. lia.
Qed.

Lemma Swap_pointwise (f g : list Fix) (i j : Z) :
  (is_Some (Swap f i j) ↔ (0 ≤ i < Len f)%Z ∧ (0 ≤ j < Len f)%Z)
  ∧ (Swap f i j = Some g →
     Len g = Len f
     ∧ at_index g i = at_index f j
     ∧ at_index g j = at_index f i
     ∧ ∀ k, k ≠ i → k ≠ j → at_index g k = at_index f k).
Proof.
  split.
  - rewrite <- !at_index_is_Some. unfold Swap.
    destruct (at_index f i), (at_index f j); split;
      intros H; try (by destruct H as [[? ?] [? ?]]); try (by destruct H); eauto.
  - unfold Swap. destruct (at_index f i) as [a|] eqn:Hi; [|done].
    destruct (at_index f j) as [b|] eqn:Hj; [|done]. intros [= <-].
    apply at_index_Some in Hi as [Hir Hi]. apply at_index_Some in Hj as [Hjr Hj].
    unfold Len in *.
    split; [by rewrite !length_insert|].
    assert (∀ k, (0 ≤ k)%Z → at_index (<[Z.to_nat j:=a]> (<[Z.to_nat i:=b]> f)) k
                            = (<[Z.to_nat j:=a]> (<[Z.to_nat i:=b]> f)) !! Z.to_nat k) as Hat.
    { intros k Hk. unfold at_index. destruct (k <? 0)%Z eqn:E; [apply Z.ltb_lt in E; lia|done]. }
    split; [|split].
    + rewrite Hat by lia. destruct (decide (i = j)) as [->|Hne].
      * rewrite list_lookup_insert_eq by (rewrite length_insert; lia).
        unfold at_index. destruct (j <? 0)%Z eqn:E; [apply Z.ltb_lt in E; lia|]. congruence.
      * rewrite list_lookup_insert_ne by lia.
        rewrite list_lookup_insert_eq by lia.
        unfold at_index. destruct (j <? 0)%Z eqn:E; [apply Z.ltb_lt in E; lia|]. congruence.
    + rewrite Hat by lia. rewrite list_lookup_insert_eq by (rewrite length_insert; lia).
      unfold at_index. destruct (i <? 0)%Z eqn:E; [apply Z.ltb_lt in E; lia|]. congruence.
    + intros k Hki Hkj. unfold at_index. destruct (k <? 0)%Z eqn:E; [done|].
      apply Z.ltb_ge in E. rewrite !list_lookup_insert_ne by lia. done.
Qed.

Lemma list_eq_at_index (f g : list Fix) :
  Len f = Len g → (∀ k, at_index g k = at_index f k) → g = f.
Proof.
  intros HL H. apply list_eq. intros n.
  specialize (H (Z.of_nat n)). unfold at_index in H.
  destruct (Z.of_nat n <? 0)%Z eqn:E; [apply Z.ltb_lt in E; lia|].
  by rewrite Nat2Z.id in H.
Qed.

(** X4.  [byName.Swap] succeeds exactly when both indices lie in
    [0 .. Len-1] (otherwise the slice access panics).  It then exchanges
    the two entries, so that [Less] on the two indices answers as it did
    with the indices exchanged, and leaves every other entry and the
    length as they were. *)
Theorem Swap_exchanges (f g : list Fix) (i j : Z) :
  (is_Some (Swap f i j) ↔ (0 ≤ i < Len f)%Z ∧ (0 ≤ j < Len f)%Z)
  ∧ (Swap f i j = Some g →
     Len g = Len f
     ∧ at_index g i = at_index f j
     ∧ at_index g j = at_index f i
     ∧ LessAt g i j = LessAt f j i
     ∧ ∀ k, k ≠ i → k ≠ j → at_index g k = at_index f k).
Proof.
  destruct (Swap_pointwise f g i j) as [Hiff Hx]. split; [exact Hiff|].
  intros H. destruct (Hx H) as (HL & Hi & Hj & Hk).
  repeat split; try done. unfold LessAt. by rewrite Hi, Hj.
Qed.

(** X5.  Swapping the same two entries a second time restores the list,
    and the order of the two indices does not matter. *)
Theorem Swap_twice (f g : list Fix) (i j : Z) :
  Swap f i j = Some g → Swap g i j = Some f ∧ Swap f j i = Some g.
Proof.
  intros H. pose proof (Swap_pointwise f g i j) as [Hiff Hx].
  destruct (Hx H) as (HL & Hi & Hj & Hk).
  assert (is_Some (Swap f i j)) as Hs by eauto. apply Hiff in Hs as [Hir Hjr].
  split.
  - pose proof (Swap_pointwise g f i j) as [Hiff2 _].
    assert (is_Some (Swap g i j)) as [h Hh] by (apply Hiff2; rewrite HL; done).
    rewrite Hh. f_equal.
    pose proof (Swap_pointwise g h i j) as [_ Hx2].
    destruct (Hx2 Hh) as (HL2 & Hi2 & Hj2 & Hk2).
    apply list_eq_at_index; [congruence|]. intros k.
    destruct (decide (k = i)) as [->|Hki]; [congruence|].
    destruct (decide (k = j)) as [->|Hkj]; [congruence|].
    rewrite Hk2 by done. by rewrite Hk.
  - pose proof (Swap_pointwise f g j i) as [Hiff2 _].
    assert (is_Some (Swap f j i)) as [h Hh] by (apply Hiff2; done).
    rewrite Hh. f_equal.
    pose proof (Swap_pointwise f h j i) as [_ Hx2].
    destruct (Hx2 Hh) as (HL2 & Hi2 & Hj2 & Hk2).
    apply list_eq_at_index; [congruence|]. intros k.
    destruct (decide (k = i)) as [->|Hki]; [congruence|].
    destruct (decide (k = j)) as [->|Hkj]; [congruence|].
    rewrite Hk by done. by rewrite Hk2.
Qed.

End SwapFacts.

(** ** The usage text and the exit status *)

Section UsageFacts.
Context {tree LoaderState : Type} (E : Env) (C : Collab tree LoaderState).
Local Abbreviation World := (World tree LoaderState).
Local Abbreviation IO := (IO tree LoaderState).
Local Abbreviation Fixer := (@Fixer tree LoaderState).
Local Abbreviation Package := (Package tree).

Lemma fold_usageEntry_lines l (w : World) :
  fold_left (usageEntry C) l w
  = set_stderr (fun o => (o ++ flat_map (usageLines C) l)%list) w.
Proof.
  revert w. induction l as [|f l IH]; intros w; simpl.
  - unfold set_stderr. destruct w; simpl. by rewrite app_nil_r.
  - rewrite IH. unfold usageEntry, eprint, set_stderr. simpl.
    f_equal. by rewrite <- !app_assoc.
Qed.

(** X6.  [usage] adds to the error stream the usage line, the flag
    defaults and the heading, then for every fix its name line and its
    indented description, each fix once and in name order; it writes
    nothing to the disk, the standard output or the log. *)
Theorem usage_lists_fixes_by_name (w : World) :
  stderr (fst (usage C w))
  = (stderr w
     ++ [Fprintf usageLine []; PrintDefaults;
         Fprintf (newline +:+ "Available fixups are:" +:+ newline) []]
     ++ flat_map (usageLines C) (sortByName (allFixes w)))%list
  ∧ sortByName (allFixes w) ≡ₚ allFixes w
  ∧ StronglySorted nameLe (sortByName (allFixes w))
  ∧ fs (fst (usage C w)) = fs w
  ∧ stdout (fst (usage C w)) = stdout w
  ∧ logs (fst (usage C w)) = logs w.
Proof.
  split; [|split; [apply sortByName_perm|split; [apply sortByName_strongly_sorted|]]].
  - unfold usage. cbn [fst]. rewrite fold_usageEntry_lines. simpl.
    by rewrite <- !app_assoc.
  - unfold usage. cbn [fst]. rewrite fold_usageEntry_lines. done.
Qed.

Lemma indentLines_app a b : indentLines (a +:+ b) = indentLines a +:+ indentLines b.
Proof.
  induction a as [|c a IH]; simpl; [done|].
  destruct (Ascii.eqb c (ascii_of_nat 10)); simpl; by rewrite IH.
Qed.

(** X7.  The replacement [usage] applies to a description
    ([strings.Replace(desc, "\n", "\n\t", -1)]) works piecewise over a
    concatenation, turns a line end into a line end and a tab, lengthens
    the text by one byte per line end, and leaves a text without line
    ends as it is. *)
Theorem indentLines_spec (a b : string) :
  indentLines (a +:+ b) = indentLines a +:+ indentLines b
  ∧ indentLines newline = newline +:+ tab
  ∧ String.length (indentLines a) = String.length a + countNewlines a
  ∧ (countNewlines a = 0 → indentLines a = a).
Proof.
  split; [apply indentLines_app|]. split; [done|]. split.
  - induction a as [|c a IH]; [done|]. cbn [indentLines countNewlines].
    destruct (Ascii.eqb c (ascii_of_nat 10)).
    + change (S (S (String.length (indentLines a)))
              = S (String.length a) + (1 + countNewlines a)). rewrite IH. lia.
    + cbn [String.length]. rewrite IH. lia.
  - induction a as [|c a IH]; simpl; [done|].
    destruct (Ascii.eqb c (ascii_of_nat 10)); simpl; [done|].
    intros H. by rewrite IH.
Qed.

Variable engine : Fixer → Package → IO (option error).

Lemma processArg_inv fx a (w w1 : World) r :
  processArg C engine fx a w = (r, w1) →
  match r with
  | ImportFailed e =>
      ∃ l, Import C a (fs w) (loader w) = (l, Some e)
           ∧ w1 = logError e importMsg [("path", a)] (set_loader (fun _ => l) w)
  | FixFailed e =>
      ∃ l w2, Import C a (fs w) (loader w) = (l, None)
              ∧ engine fx (PackageInfoFor C a l)
                  (logInfo 1 "fixing package"
                     [("package", ImportPath (PackageInfoFor C a l))]
                     (set_loader (fun _ => l) w)) = (Some e, w2)
              ∧ w1 = eprint (Fprintf abortFormat [ArgS a; ArgE e]) w2
  | ArgDone =>
      ∃ l, Import C a (fs w) (loader w) = (l, None)
           ∧ engine fx (PackageInfoFor C a l)
               (logInfo 1 "fixing package"
                  [("package", ImportPath (PackageInfoFor C a l))]
                  (set_loader (fun _ => l) w)) = (None, w1)
  end.
Proof.
  unfold processArg, bind, doImport.
  destruct (Import C a (fs w) (loader w)) as [l [e|]] eqn:HI; simpl.
  - intros [= <- <-]. eauto.
  - destruct (engine _ _ _) as [[e|] w2] eqn:HE; simpl; intros [= <- <-]; eauto.
Qed.

Lemma argLoop_outcome fx args (w : World) :
  let '(w1, code) := argLoop C engine fx args w in
  (code = 0%Z ∧ runAll C engine fx args w = Some w1)
  ∨ ∃ pre a post w0 e,
      args = (pre ++ a :: post)%list
      ∧ runAll C engine fx pre w = Some w0
      ∧ ((code = 1%Z ∧ processArg C engine fx a w0 = (ImportFailed e, w1))
         ∨ (code = 5%Z ∧ processArg C engine fx a w0 = (FixFailed e, w1))).
Proof.
  revert w. induction args as [|a args IH]; intros w; cbn [argLoop runAll]; [by left|].
  destruct (processArg C engine fx a w) as [[|e|e] w1] eqn:HP.
  - specialize (IH w1). destruct (argLoop C engine fx args w1) as [w2 code].
    destruct IH as [[-> Hr]|(pre & b & post & w0 & e & -> & Hr & Hc)].
    + by left.
    + right. exists (a :: pre), b, post, w0, e. cbn [runAll app]. rewrite HP. done.
  - right. exists [], a, args, w, e. cbn [runAll app]. eauto.
  - right. exists [], a, args, w, e. cbn [runAll app]. eauto.
Qed.

End UsageFacts.

Section MainFacts.
Context {tree LoaderState : Type} (E : Env) (C : Collab tree LoaderState).
Local Abbreviation World := (World tree LoaderState).
Local Abbreviation IO := (IO tree LoaderState).
Local Abbreviation Fixer := (@Fixer tree LoaderState).
Local Abbreviation Package := (Package tree).

Lemma setup_exit flags (w w1 : World) code :
  setup E C flags w = (w1, inl code) →
  (code = 93%Z ∧ ((∃ c, flags = @BadFlags c) ∨ (∃ d, flags = @Parsed d [])))
  ∨ (code = 1%Z ∧ ∃ d a args e,
       flags = @Parsed d (a :: args) ∧ fault E (clock w) = Some e
       ∧ w1 = logError e whereMsg [] (tick w)).
Proof.
  unfold setup. destruct flags as [c|d [|a args]].
  - destruct c;
      match goal with |- context [usage C ?w0] =>
        pose proof (usage_exits C w0) as (Hc & _); destruct (usage C w0) as [wu cu] end;
      simpl in Hc; intros [= <- <-]; left; eauto.
  - pose proof (usage_exits C w) as (Hc & _). destruct (usage C w) as [wu cu].
    simpl in Hc. intros [= <- <-]. left; eauto.
  - unfold Getwd. destruct (fault E (clock w)) as [e|] eqn:Hf; simpl; [|done].
    intros [= <- <-]. right. split; [done|]. by exists d, a, args, e.
Qed.

Lemma setup_ready flags (w w1 : World) fx args :
  setup E C flags w = (w1, inr (fx, args)) →
  ∃ d a rest, flags = @Parsed d args ∧ args = a :: rest
    ∧ fault E (clock w) = None
    ∧ w1 = set_loader (fun _ => NewImporter C (workDir E)) (tick w)
    ∧ fx = mkFixer (allFixes w) (handleFix E C (mkHandler d)).
Proof.
  unfold setup. destruct flags as [c|d [|a args']].
  - destruct c; destruct (usage C _); done.
  - destruct (usage C _); done.
  - unfold Getwd. destruct (fault E (clock w)) as [e|] eqn:Hf; simpl; [done|].
    intros [= <- <- <-]. by exists d, a, args'.
Qed.

Variable engine : Fixer → Package → IO (option error).

(** X8.  Whatever the flags, the environment and the engine, [main] ends
    with one of the statuses 0, 1, 5 and 93. *)
Theorem exit_status_range flags (w : World) :
  snd (main E C engine flags w) = 0%Z ∨ snd (main E C engine flags w) = 1%Z
  ∨ snd (main E C engine flags w) = 5%Z ∨ snd (main E C engine flags w) = 93%Z.
Proof.
  unfold main. destruct (setup E C flags w) as [w1 [code|[fx args]]] eqn:Hs.
  - apply setup_exit in Hs as [[-> _]|[-> _]]; simpl; auto.
  - pose proof (argLoop_outcome C engine fx args w1) as H.
    destruct (argLoop C engine fx args w1) as [w2 code]. simpl.
    destruct H as [[-> _]|(? & ? & ? & ? & ? & _ & _ & [[-> _]|[-> _]])]; auto.
Qed.

(** X9.  What an exit status of [main] tells.  93: the flags were
    rejected or no path argument was given.  0: the setup succeeded and
    every argument ran to completion, leaving the final world.  5: the
    arguments before some argument completed, that argument resolved, and
    the engine failed on its package.  1: [os.Getwd] failed (and only the
    error was logged), or the arguments before some argument completed and
    that argument failed to resolve. *)
Theorem exit_status_meaning flags (w : World) :
  let '(w1, code) := main E C engine flags w in
  (code = 93%Z → (∃ c, flags = @BadFlags c) ∨ (∃ d, flags = @Parsed d []))
  ∧ (code = 0%Z →
     ∃ w0 fx args, setup E C flags w = (w0, inr (fx, args))
                   ∧ runAll C engine fx args w0 = Some w1)
  ∧ (code = 5%Z →
     ∃ w0 fx pre a post wp l e w2,
       setup E C flags w = (w0, inr (fx, (pre ++ a :: post)%list))
       ∧ runAll C engine fx pre w0 = Some wp
       ∧ Import C a (fs wp) (loader wp) = (l, None)
       ∧ engine fx (PackageInfoFor C a l)
           (logInfo 1 "fixing package"
              [("package", ImportPath (PackageInfoFor C a l))]
              (set_loader (fun _ => l) wp)) = (Some e, w2))
  ∧ (code = 1%Z →
     (∃ e, fault E (clock w) = Some e ∧ w1 = logError e whereMsg [] (tick w))
     ∨ ∃ w0 fx pre a post wp l e,
         setup E C flags w = (w0, inr (fx, (pre ++ a :: post)%list))
         ∧ runAll C engine fx pre w0 = Some wp
         ∧ Import C a (fs wp) (loader wp) = (l, Some e)).
Proof.
  unfold main. destruct (setup E C flags w) as [w1 [code|[fx args]]] eqn:Hs.
  - apply setup_exit in Hs as [[-> Hf]|[-> (d & a & args & e & _ & Hf & ->)]];
      (split; [|split; [|split]]); try done; eauto.
  - pose proof (argLoop_outcome C engine fx args w1) as H.
    destruct (argLoop C engine fx args w1) as [w2 code].
    destruct H as [[-> Hr]|(pre & a & post & wp & e & -> & Hr & [[-> HP]|[-> HP]])];
      (split; [|split; [|split]]); try done.
    + eauto.
    + intros _. right. apply processArg_inv in HP. cbn in HP.
      destruct HP as (l & HI & _). by exists w1, fx, pre, a, post, wp, l, e.
    + intros _. apply processArg_inv in HP. cbn in HP.
      destruct HP as (l & w3 & HI & HE & _).
      by exists w1, fx, pre, a, post, wp, l, e, w3.
Qed.


Lemma argLoop_keeps_disk fx args (w : World) :
  (∀ pkg w1, fs (snd (engine fx pkg w1)) = fs w1) →
  fs (fst (argLoop C engine fx args w)) = fs w.
Proof.
  intros Heng. revert w. induction args as [|a args IH]; intros w; cbn [argLoop]; [done|].
  destruct (processArg C engine fx a w) as [r w1] eqn:HP.
  assert (fs w1 = fs w) as Hw.
  { apply processArg_inv in HP. destruct r; cbn in HP.
    - destruct HP as (l & _ & HE). specialize (Heng (PackageInfoFor C a l)
        (logInfo 1 "fixing package" [("package", ImportPath (PackageInfoFor C a l))]
           (set_loader (fun _ => l) w))). rewrite HE in Heng. exact Heng.
    - destruct HP as (l & _ & ->). done.
    - destruct HP as (l & w2 & _ & HE & ->). specialize (Heng (PackageInfoFor C a l)
        (logInfo 1 "fixing package" [("package", ImportPath (PackageInfoFor C a l))]
           (set_loader (fun _ => l) w))). rewrite HE in Heng. exact Heng. }
  destruct r; simpl; [rewrite IH|..]; done.
Qed.

(** X11.  The driver itself writes no file: if the engine, called with
    the fixer [main] builds, leaves the disk as it finds it, then so does
    the whole run. *)
Theorem driver_writes_no_file d args (w : World) :
  (∀ pkg w1,
     fs (snd (engine (mkFixer (allFixes w) (handleFix E C (mkHandler d))) pkg w1)) = fs w1) →
  fs (fst (main E C engine (Parsed d args) w)) = fs w.
Proof.
  intros Heng. unfold main.
  destruct (setup E C (Parsed d args) w) as [w1 [code|[fx args']]] eqn:Hs.
  - pose proof (setup_cases E C (Parsed d args) w) as Hc. rewrite Hs in Hc. tauto.
  - apply setup_ready in Hs as (d' & a & rest & [= <- <-] & _ & _ & -> & ->).
    rewrite argLoop_keeps_disk; [done|]. apply Heng.
Qed.

End MainFacts.

Section EngineInDiffMode.
Context {tree LoaderState : Type} (E : Env) (C : Collab tree LoaderState).
Local Abbreviation World := (World tree LoaderState).

Lemma FixPackage_diff_keeps_disk cap fixes (pkg : Package tree) (w : World) :
  (∀ n, fault E n = None) →
  fs (snd (FixPackage cap (mkFixer fixes (handleFix E C (mkHandler true))) pkg w)) = fs w.
Proof.
  intros Hok. unfold FixPackage. generalize (Files pkg). intros files. revert w.
  induction files as [|file files IH]; intros w; cbn [fixFiles]; [done|].
  destruct (applyFixes cap _ _) as [t1|[name cause]]; [|done].
  unfold bind. cbn [HandleFix].
  pose proof (handleFix_diff_cases E C (mkInfo (info_Name file) t1) w) as H.
  destruct (handleFix E C (mkHandler true) _ w) as [[e|] w1];
    destruct H as [[_ Hfs] _]; specialize (Hfs Hok).
  - done.
  - rewrite IH. done.
Qed.

End EngineInDiffMode.

(** ** Files and the handler *)

Section FileFacts.
Context {tree LoaderState : Type} (E : Env).
Local Abbreviation World := (World tree LoaderState).

Lemma string_app_nil_r (s : string) : s +:+ "" = s.
Proof.
  induction s as [|c s IH]; [done|].
  change (String c (s +:+ "") = String c s). by rewrite IH.
Qed.

Lemma readFile_outcome (name : string) (w : World) :
  let '((src, err), w1) := readFile E name w in
  fs w1 = fs w ∧ stdout w1 = stdout w
  ∧ match err with
    | None => ∃ f, fs w !! name = Some f ∧ src = content f
    | Some _ => src = []
    end
  ∧ (fs w !! name = None → err ≠ None)
  ∧ (is_Some (fs w !! name) → fault E (clock w) = None →
     fault E (S (clock w)) = None → err = None).
Proof.
  unfold readFile, bind, Open, ReadAll, Close, ret.
  destruct (fault E (clock w)) as [e|] eqn:H0; simpl.
  { repeat split; try done; congruence. }
  destruct (fs w !! name) as [f|] eqn:Hf; simpl.
  2:{ repeat split; try done; try congruence; by intros [? ?]. }
  destruct (fault E (S (clock w))) as [e|] eqn:H1; simpl; rewrite ?Hf; simpl;
    repeat split; try done; try congruence; eauto.
Qed.

(** X12.  [readFile] changes neither the disk nor the standard output.
    It returns either the bytes stored under the name with a nil error,
    or an error with no data; a missing file always gives an error, and an
    existing file is read whenever opening and reading do not fail. *)
Theorem readFile_result (name : string) (w : World) :
  let '((src, err), w1) := readFile E name w in
  fs w1 = fs w ∧ stdout w1 = stdout w
  ∧ match err with
    | None => ∃ f, fs w !! name = Some f ∧ src = content f
    | Some _ => src = []
    end
  ∧ (fs w !! name = None → err ≠ None)
  ∧ (is_Some (fs w !! name) → fault E (clock w) = None →
     fault E (S (clock w)) = None → err = None).
Proof. exact (readFile_outcome name w). Qed.

Lemma WriteFile_cases name data prm (w : World) :
  let t := clock w in
  let mode := match fs w !! name with
              | Some old => perm old
              | None => N.ldiff prm (umask E)
              end in
  let '(r, w1) := WriteFile E name data prm w in
  sameButDisk w w1 ∧
  match fault E t, fault E (S t) with
  | Some e, _ => r = Some e ∧ fs w1 = fs w
  | None, Some e =>
      r = Some e ∧ fs w1 = <[name := mkFile (take (short E (S t)) data) mode]> (fs w)
  | None, None =>
      r = fault E (S (S t)) ∧ fs w1 = <[name := mkFile data mode]> (fs w)
  end.
Proof.
  unfold WriteFile, bind, OpenFileTrunc, Write, Close, ret, sameButDisk.
  destruct (fault E (clock w)); simpl; [done|].
  destruct (fault E (S (clock w))); simpl; rewrite alter_insert_eq; done.
Qed.

Lemma TempFile_name dir pat (w w1 : World) name :
  TempFile E dir pat w = ((name, None), w1) →
  ∃ r, r ∈ random E (clock w)
       ∧ name = joinPath (if String.eqb dir "" then tempDir E else dir)
                  (fst (prefixAndSuffix pat)) +:+ r +:+ snd (prefixAndSuffix pat).
Proof.
  unfold TempFile. destruct (hasSlash pat); [done|].
  destruct (prefixAndSuffix pat) as [pre suf].
  destruct (fault E (clock w)); [done|].
  destruct (firstFree _ _ _ _) as [n|] eqn:Hf; [|done].
  intros [= <- _]. simpl.
  clear -Hf. induction (random E (clock w)) as [|r rest IH]; simpl in Hf; [done|].
  destruct (fs w !! _).
  - destruct (IH Hf) as (r' & Hin & ->). exists r'. split; [by right|done].
  - injection Hf as <-. exists r. split; [by left|done].
Qed.

Lemma writeTempFile_name dir pat data (w w1 : World) name :
  writeTempFile E dir pat data w = ((name, None), w1) →
  ∃ r, r ∈ random E (clock w)
       ∧ name = joinPath (if String.eqb dir "" then tempDir E else dir)
                  (fst (prefixAndSuffix pat)) +:+ r +:+ snd (prefixAndSuffix pat).
Proof.
  unfold writeTempFile, bind.
  destruct (TempFile E dir pat w) as [[file [e|]] wt] eqn:HT; [done|].
  unfold Write, Close, ret.
  destruct (fault E (clock wt)); cbn [fst snd clock tick set_fs];
    [by destruct (Remove E file _)|].
  destruct (fault E (S (clock wt))); [by destruct (Remove E file _)|].
  intros [= <- _]. by apply TempFile_name in HT.
Qed.

(** X13.  When [diff] gets as far as running the utility, the two files it
    names are distinct, lie in the temporary directory under names that
    start with [kfix], did not exist before the call, and are the only
    difference between the disk the utility sees and the disk before the
    call: they hold the first and the second byte sequence. *)
Theorem diff_temp_files (b1 b2 : bytes) (w : World) :
  match diffRun E b1 b2 w with
  | StoreFailed _ => True
  | Invoked f1 f2 disk r =>
      f1 ≠ f2
      ∧ (∃ r1, f1 = joinPath (tempDir E) "kfix" +:+ r1)
      ∧ (∃ r2, f2 = joinPath (tempDir E) "kfix" +:+ r2)
      ∧ fs w !! f1 = None ∧ fs w !! f2 = None
      ∧ disk = <[f2 := mkFile b2 (N.ldiff 384 (umask E))]>
                 (<[f1 := mkFile b1 (N.ldiff 384 (umask E))]> (fs w))
  end.
Proof.
  pose proof (diff_cases E b1 b2 w) as H.
  destruct (diff E b1 b2 w) as [[data err] wd]. destruct H as (_ & _ & H).
  unfold diffRun in *.
  destruct (writeTempFile E "" "kfix" b1 w) as [[f1 [e|]] wa] eqn:H1; [done|].
  destruct (writeTempFile E "" "kfix" b2 wa) as [[f2 [e|]] wb] eqn:H2; [done|].
  destruct H as (_ & _ & Hne & _ & _ & Hf1 & Hf2).
  pose proof (writeTempFile_name _ _ _ _ _ _ H1) as (r1 & _ & Hn1).
  pose proof (writeTempFile_name _ _ _ _ _ _ H2) as (r2 & _ & Hn2).
  apply writeTempFile_cases in H1 as (_ & _ & _ & _ & Hd1).
  apply writeTempFile_cases in H2 as (_ & _ & _ & _ & Hd2).
  cbn in Hn1, Hn2. rewrite string_app_nil_r in Hn1, Hn2.
  repeat split; eauto. by rewrite Hd2, Hd1.
Qed.

End FileFacts.

Section HandlerMore.
Context {tree LoaderState : Type} (E : Env) (C : Collab tree LoaderState).
Local Abbreviation World := (World tree LoaderState).

Lemma handleFix_steps h (info : FileInfo tree) (w : World) :
  match readFile E (info_Name info) w with
  | ((_, Some e), wr) => handleFix E C h info w = (Some e, wr)
  | ((src, None), wr) =>
      match GofmtFile C (info_AST info) (loader w) with
      | (_, Some e) => handleFix E C h info w = (Some e, wr)
      | (newSrc, None) =>
          handleFix E C h info w
          = if doDiff h
            then match diff E src newSrc wr with
                 | ((_, Some e), wd) => (Some (Wrapped "computing diff: " e), wd)
                 | ((data, None), wd) =>
                     (None, set_stdout
                              (fun o => (o ++ data)%list)
                              (set_stdout
                                 (fun o => (o ++ list_byte_of_string
                                                   (diffHeader (info_Name info)))%list) wd))
                 end
            else WriteFile E (info_Name info) newSrc 0 wr
      end
  end.
Proof.
  unfold handleFix, bind.
  destruct (readFile E (info_Name info) w) as [[src [e|]] wr] eqn:HR; [done|].
  apply readFile_cases in HR as (_ & (_ & _ & _ & _ & Hl) & _). rewrite Hl.
  destruct (GofmtFile C (info_AST info) (loader w)) as [newSrc [e|]]; [done|].
  destruct (doDiff h); [|done].
  destruct (diff E src newSrc wr) as [[data [e|]] wd]; done.
Qed.

(** X14.  In both modes [handleFix] fails without any effect on the disk
    or the standard output when the file does not exist, and when the
    syntax tree cannot be formatted. *)
Theorem handleFix_needs_source h (info : FileInfo tree) (w : World) :
  (fs w !! info_Name info = None →
   is_Some (fst (handleFix E C h info w))
   ∧ fs (snd (handleFix E C h info w)) = fs w
   ∧ stdout (snd (handleFix E C h info w)) = stdout w)
  ∧ (is_Some (snd (GofmtFile C (info_AST info) (loader w))) →
     is_Some (fst (handleFix E C h info w))
     ∧ fs (snd (handleFix E C h info w)) = fs w
     ∧ stdout (snd (handleFix E C h info w)) = stdout w).
Proof.
  pose proof (handleFix_steps h info w) as H.
  pose proof (readFile_outcome E (info_Name info) w) as HR.
  destruct (readFile E (info_Name info) w) as [[src [e|]] wr].
  - rewrite H. destruct HR as (Hfs & Hso & _). simpl. split; intros _; eauto.
  - destruct HR as (Hfs & Hso & _ & Hmiss & _). split.
    + intros Hn. by destruct (Hmiss Hn).
    + intros [e He]. destruct (GofmtFile C (info_AST info) (loader w)) as [newSrc [e'|]];
        [|done]. rewrite H. simpl. eauto.
Qed.

Lemma handleFix_write_cases (info : FileInfo tree) (w : World) :
  let '(r, w1) := handleFix E C (mkHandler false) info w in
  sameButDisk w w1 ∧
  ((is_Some r ∧ fs w1 = fs w)
   ∨ ∃ old newSrc wr,
       fs w !! info_Name info = Some old
       ∧ readFile E (info_Name info) w = ((content old, None), wr)
       ∧ GofmtFile C (info_AST info) (loader w) = (newSrc, None)
       ∧ (r, w1) = WriteFile E (info_Name info) newSrc 0 wr).
Proof.
  pose proof (handleFix_steps (mkHandler false) info w) as H.
  destruct (readFile E (info_Name info) w) as [[src [e|]] wr] eqn:HR.
  - rewrite H. apply readFile_cases in HR as (Hfs & Hs & _). split; [done|]. left. eauto.
  - pose proof (readFile_cases _ _ _ _ _ _ HR) as (Hfs & Hs & Hok).
    destruct (Hok eq_refl) as (old & Hold & <-).
    destruct (GofmtFile C (info_AST info) (loader w)) as [newSrc [e|]] eqn:HG.
    + rewrite H. split; [done|]. left. eauto.
    + simpl in H. rewrite H.
      pose proof (WriteFile_cases E (info_Name info) newSrc 0 wr) as HW.
      destruct (WriteFile E (info_Name info) newSrc 0 wr) as [r w1] eqn:HW2.
      destruct HW as [Hs2 _]. split; [exact (sameButDisk_trans _ _ _ Hs Hs2)|].
      right. exists old, newSrc, wr. rewrite ?HW2. done.
Qed.

(** C10 (as amended).  In write mode the reformatted bytes go to the
    original path through [WriteFile] with permission argument 0, after
    the file has been read and its tree formatted.  When [handleFix]
    succeeds the file existed before, and it gets the new contents and
    keeps its permission bits.  When no file is stored under the path,
    [handleFix] returns an error and creates nothing: the disk is as it
    was and the path is still missing.  [WriteFile] taken alone, called
    with permission 0 on a missing path, creates a file with no
    permission bit set; [handleFix] never reaches that case. *)
Theorem write_mode_permissions (info : FileInfo tree) (w : World) :
  (∀ wr src newSrc,
     readFile E (info_Name info) w = ((src, None), wr) →
     GofmtFile C (info_AST info) (loader wr) = (newSrc, None) →
     handleFix E C (mkHandler false) info w = WriteFile E (info_Name info) newSrc 0 wr)
  ∧ (∀ w1,
       handleFix E C (mkHandler false) info w = (None, w1) →
       ∃ old newSrc,
         fs w !! info_Name info = Some old
         ∧ GofmtFile C (info_AST info) (loader w) = (newSrc, None)
         ∧ fs w1 = <[info_Name info := mkFile newSrc (perm old)]> (fs w))
  ∧ (fs w !! info_Name info = None →
     is_Some (fst (handleFix E C (mkHandler false) info w))
     ∧ fs (snd (handleFix E C (mkHandler false) info w)) = fs w
     ∧ fs (snd (handleFix E C (mkHandler false) info w)) !! info_Name info = None)
  ∧ (∀ name data (v v1 : World),
       fs v !! name = None →
       WriteFile E name data 0 v = (None, v1) →
       fs v1 = <[name := mkFile data 0]> (fs v)).
Proof.
  split; [|split; [|split]].
  - intros wr src newSrc HR HG. unfold handleFix, bind.
    rewrite HR. by rewrite HG.
  - intros w1 Hh. pose proof (handleFix_write_cases info w) as H.
    rewrite Hh in H. destruct H as [_ [[[e He] _]|(old & newSrc & wr & Hold & HR & HG & HW)]];
      [discriminate|].
    exists old, newSrc. split; [done|]. split; [done|].
    symmetry in HW. apply WriteFile_ok in HW.
    apply readFile_cases in HR as (Hfs & _). by rewrite HW, Hfs, Hold.
  - intros Hn. pose proof (handleFix_write_cases info w) as H.
    destruct (handleFix E C (mkHandler false) info w) as [r w1].
    destruct H as [_ [[Hr Hfs]|(old & _ & _ & Hold & _)]]; [|congruence].
    simpl. by rewrite Hfs.
  - intros name data v v1 Hnone HW. apply WriteFile_ok in HW.
    by rewrite HW, Hnone, N.ldiff_0_l.
Qed.

(** X15.  In write mode [handleFix] prints nothing, touches no file but
    the one named, never creates a file that was missing (it fails on
    reading first), and leaves the permission bits of an existing file as
    they were, whether it succeeds or fails. *)
Theorem handleFix_write_frame (info : FileInfo tree) (w : World) :
  let w1 := snd (handleFix E C (mkHandler false) info w) in
  stdout w1 = stdout w
  ∧ (∀ p, p ≠ info_Name info → fs w1 !! p = fs w !! p)
  ∧ (fs w !! info_Name info = None → fs w1 !! info_Name info = None)
  ∧ (∀ old, fs w !! info_Name info = Some old →
       ∃ c, fs w1 !! info_Name info = Some (mkFile c (perm old))).
Proof.
  pose proof (handleFix_write_cases info w) as H.
  destruct (handleFix E C (mkHandler false) info w) as [r w1]. cbn [snd].
  destruct H as [(Hso & _) H]. split; [done|].
  destruct H as [[_ Hfs]|(old & newSrc & wr & Hold & HR & _ & HW)].
  - rewrite Hfs. repeat split; try done. intros old' ->. destruct old'. eauto.
  - apply readFile_cases in HR as (Hfs & _).
    pose proof (WriteFile_cases E (info_Name info) newSrc 0 wr) as HC.
    rewrite <- HW in HC. destruct HC as [_ HC]. rewrite Hfs, Hold in HC.
    assert (∃ c, fs w1 = fs w ∨ fs w1 = <[info_Name info := mkFile c (perm old)]> (fs w))
      as (c & Hc).
    { destruct (fault E (clock wr)); [exists []; left; tauto|].
      destruct (fault E (S (clock wr))); eexists; right; apply HC. }
    split; [|split].
    + intros p Hp. destruct Hc as [->| ->]; [done|]. by rewrite lookup_insert_ne.
    + intros Hn. congruence.
    + intros old' Hold'. assert (old' = old) as -> by congruence.
      destruct Hc as [->| ->].
      * rewrite Hold. destruct old. eauto.
      * rewrite lookup_insert_eq. eauto.
Qed.

(** X16.  The rewrite is not atomic: when the file has been read,
    formatted and opened for writing and the write then fails, [handleFix]
    returns the write error and the file is left holding just the bytes
    the write stored, under its old permission bits. *)
Theorem write_mode_partial_write (info : FileInfo tree) (w wr : World) src newSrc e :
  readFile E (info_Name info) w = ((src, None), wr) →
  GofmtFile C (info_AST info) (loader w) = (newSrc, None) →
  fault E (clock wr) = None →
  fault E (S (clock wr)) = Some e →
  ∃ old, fs w !! info_Name info = Some old
    ∧ fst (handleFix E C (mkHandler false) info w) = Some e
    ∧ fs (snd (handleFix E C (mkHandler false) info w))
      = <[info_Name info := mkFile (take (short E (S (clock wr))) newSrc) (perm old)]> (fs w).
Proof.
  intros HR HG H0 H1.
  pose proof (handleFix_steps (mkHandler false) info w) as H.
  rewrite HR, HG in H. simpl in H. rewrite H.
  apply readFile_cases in HR as (Hfs & _ & Hok).
  destruct (Hok eq_refl) as (old & Hold & _). exists old. split; [done|].
  pose proof (WriteFile_cases E (info_Name info) newSrc 0 wr) as HW.
  destruct (WriteFile E (info_Name info) newSrc 0 wr) as [r w1].
  destruct HW as [_ HW]. rewrite H0, H1, Hfs, Hold in HW. simpl. tauto.
Qed.

(** X17.  An error of [handleFix] in diff mode is the error of reading the
    file, the error of formatting the tree, or the error of [diff] behind
    the text [computing diff: ]. *)
Theorem handleFix_diff_errors (info : FileInfo tree) (w : World) e :
  fst (handleFix E C (mkHandler true) info w) = Some e →
  snd (fst (readFile E (info_Name info) w)) = Some e
  ∨ snd (GofmtFile C (info_AST info) (loader w)) = Some e
  ∨ ∃ old newSrc cause,
      fs w !! info_Name info = Some old
      ∧ GofmtFile C (info_AST info) (loader w) = (newSrc, None)
      ∧ snd (fst (diff E (content old) newSrc (snd (readFile E (info_Name info) w))))
        = Some cause
      ∧ e = Wrapped "computing diff: " cause.
Proof.
  pose proof (handleFix_steps (mkHandler true) info w) as H.
  destruct (readFile E (info_Name info) w) as [[src [e0|]] wr] eqn:HR.
  - rewrite H. simpl. intros [= ->]. by left.
  - apply readFile_cases in HR as (_ & _ & Hok).
    destruct (Hok eq_refl) as (old & Hold & <-).
    destruct (GofmtFile C (info_AST info) (loader w)) as [newSrc [e0|]] eqn:HG.
    + rewrite H. simpl. intros [= ->]. right. by left.
    + simpl in H. rewrite H.
      destruct (diff E (content old) newSrc wr) as [[data [e0|]] wd] eqn:HD; simpl; [|done].
      intros [= <-]. right. right. exists old, newSrc, e0. simpl. by rewrite HD.
Qed.

(** X18.  After a successful rewrite the file reads back as the formatted
    source (when opening and reading do not fail). *)
Theorem write_then_read_back (info : FileInfo tree) (w w1 : World) :
  handleFix E C (mkHandler false) info w = (None, w1) →
  fault E (clock w1) = None →
  fault E (S (clock w1)) = None →
  ∃ newSrc,
    GofmtFile C (info_AST info) (loader w) = (newSrc, None)
    ∧ fst (readFile E (info_Name info) w1) = (newSrc, None).
Proof.
  intros H F0 F1.
  pose proof (handleFix_write_cases info w) as HC. rewrite H in HC.
  destruct HC as [_ [[[? [=]] _]|(old & newSrc & wr & Hold & HR & HG & HW)]].
  exists newSrc. split; [done|].
  symmetry in HW. apply WriteFile_ok in HW.
  unfold readFile, bind, Open, ReadAll, Close, ret.
  rewrite F0, HW, lookup_insert_eq. simpl. rewrite F1. simpl.
  by rewrite HW, lookup_insert_eq.
Qed.

(** X19.  A diff preview of a file right after its rewrite runs the
    utility on two files with the same contents, the formatted source, and
    leaves every file of the rewritten disk, the rewritten one included,
    as it was. *)
Theorem write_then_diff_compares_equal (info : FileInfo tree) (w w1 w2 : World) :
  handleFix E C (mkHandler false) info w = (None, w1) →
  handleFix E C (mkHandler true) info w1 = (None, w2) →
  ∃ newSrc f1 f2 disk t m,
    GofmtFile C (info_AST info) (loader w) = (newSrc, None)
    ∧ disk !! f1 = Some (mkFile newSrc m)
    ∧ disk !! f2 = Some (mkFile newSrc m)
    ∧ stdout w2 = (stdout w ++ list_byte_of_string (diffHeader (info_Name info))
                   ++ output (command E t disk "diff" ["-u"; f1; f2]))%list
    ∧ keepsFiles w1 w2
    ∧ content <$> fs w2 !! info_Name info = Some newSrc.
Proof.
  intros H1 H2.
  pose proof (handleFix_write_cases info w) as HC. rewrite H1 in HC.
  destruct HC as [Hs [[[? [=]] _]|(old & newSrc & wr & Hold & HR & HG & HW)]].
  symmetry in HW. apply WriteFile_ok in HW.
  pose proof (handleFix_diff_cases E C info w1) as HD. rewrite H2 in HD.
  destruct HD as ((Hk & _) & old' & newSrc' & f1 & f2 & disk & t & m
                  & Hold' & HG' & Hl1 & Hl2 & Hout).
  destruct Hs as (Hso & _ & _ & _ & Hl).
  rewrite Hl, HG in HG'. injection HG' as <-.
  pose proof Hold' as Hkeep.
  rewrite HW, lookup_insert_eq in Hold'. injection Hold' as <-. simpl in Hl1.
  exists newSrc, f1, f2, disk, t, m. rewrite <- Hso.
  repeat split; try done.
  rewrite (Hk (info_Name info)) by (rewrite Hkeep; eauto).
  by rewrite Hkeep.
Qed.

End HandlerMore.

(** ** More sample runs *)

Section MoreRuns.
Import Sample SampleMore.

(** Closed goals about the sample installation are settled by running
    the program. *)
Ltac by_computation := vm_compute; reflexivity.

(** Three sample fixes in name order. *)
Lemma Less_strict_order_witness :
  Less incr picky = true ∧ Less picky incr = false
  ∧ Less incr double = true
  ∧ fix_Name incr = fix_Name incr.
Proof.
  destruct (Less_strict_order incr picky double) as (_ & Hasym & Htrans & _).
  destruct (Less_strict_order incr incr incr) as (Hirr & _ & _ & Heq).
  assert (Less incr picky = true) as H1 by by_computation.
  assert (Less picky double = true) as H2 by by_computation.
  split; [exact H1|]. split; [exact (Hasym H1)|]. split; [exact (Htrans H1 H2)|].
  exact (Heq Hirr Hirr).
Defined.

(** A sample list in name order. *)
Lemma sortByName_keeps_sorted_witness :
  sortByName [incr; picky; double] = [incr; picky; double].
Proof.
  apply sortByName_keeps_sorted.
  repeat constructor; by_computation.
Defined.

(** Swapping the ends of a sample list, and an index out of range. *)
Lemma Swap_exchanges_witness :
  Len [picky; incr; double] = Len [double; incr; picky]
  ∧ at_index [picky; incr; double] 0 = at_index [double; incr; picky] 2
  ∧ LessAt [picky; incr; double] 0 2 = LessAt [double; incr; picky] 2 0
  ∧ (is_Some (Swap [double; incr; picky] 0 3) ↔ (0 ≤ 0 < 3)%Z ∧ (0 ≤ 3 < 3)%Z).
Proof.
  destruct (Swap_exchanges [double; incr; picky] [picky; incr; double] 0 2) as [_ Hx].
  destruct (Hx eq_refl) as (HL & Hi & _ & HLess & _).
  destruct (Swap_exchanges [double; incr; picky] [] 0 3) as [Hiff _].
  split; [exact HL|]. split; [exact Hi|]. split; [exact HLess|]. exact Hiff.
Defined.

(** Swapping back. *)
Lemma Swap_twice_witness :
  Swap [picky; incr; double] 0 2 = Some [double; incr; picky]
  ∧ Swap [double; incr; picky] 2 0 = Some [picky; incr; double].
Proof.
  exact (Swap_twice [double; incr; picky] [picky; incr; double] 0 2 eq_refl).
Defined.

(** A one-line and a two-line description. *)
Lemma indentLines_spec_witness :
  indentLines "gives up on thirteen" = "gives up on thirteen"
  ∧ indentLines ("a" +:+ newline +:+ "b") = "a" +:+ newline +:+ tab +:+ "b".
Proof.
  destruct (indentLines_spec "gives up on thirteen" "") as (_ & _ & _ & Hid).
  destruct (indentLines_spec ("a" +:+ newline) "b") as (Happ & _).
  split; [exact (Hid eq_refl)|].
  transitivity (indentLines ("a" +:+ newline) +:+ indentLines "b"); [exact Happ|reflexivity].
Defined.

(** A sample run that ends with status 5. *)
Lemma exit_status_meaning_witness :
  ∃ w1 fx pre a post wp l e w2,
    setup env collab (Parsed false ["good"; "broken"; "good"]) w0
    = (w1, inr (fx, (pre ++ a :: post)%list))
    ∧ runAll collab (FixPackage 10) fx pre w1 = Some wp
    ∧ Import collab a (fs wp) (loader wp) = (l, None)
    ∧ FixPackage 10 fx (PackageInfoFor collab a l)
        (logInfo 1 "fixing package"
           [("package", ImportPath (PackageInfoFor collab a l))]
           (set_loader (fun _ => l) wp)) = (Some e, w2).
Proof.
  pose proof (exit_status_meaning env collab (FixPackage 10)
                (Parsed false ["good"; "broken"; "good"]) w0) as H.
  assert (main env collab (FixPackage 10) (Parsed false ["good"; "broken"; "good"]) w0
          = (wAborted, 5%Z)) as Hm by by_computation.
  rewrite Hm in H. destruct H as (_ & _ & H5 & _). exact (H5 eq_refl).
Defined.


(** A run in diff mode with the engine as specified. *)
Lemma driver_writes_no_file_witness :
  fs (fst (main env collab (FixPackage 10) (Parsed true ["good"; "broken"]) w0)) = fs w0.
Proof.
  apply driver_writes_no_file. intros pkg w1. apply FixPackage_diff_keeps_disk.
  intros n. reflexivity.
Defined.

(** A missing file, and a tree the formatter rejects. *)
Lemma handleFix_needs_source_witness :
  is_Some (fst (handleFix env collab (mkHandler false) (mkInfo "missing.go" 3) w0))
  ∧ fs (snd (handleFix env collab (mkHandler false) (mkInfo "missing.go" 3) w0)) = fs w0
  ∧ is_Some (fst (handleFix env collabStrict (mkHandler false) (mkInfo "good/a.go" 0) w0))
  ∧ fs (snd (handleFix env collabStrict (mkHandler false) (mkInfo "good/a.go" 0) w0)) = fs w0.
Proof.
  destruct (handleFix_needs_source env collab (mkHandler false) (mkInfo "missing.go" 3) w0)
    as [Hmiss _].
  destruct (handleFix_needs_source env collabStrict (mkHandler false) (mkInfo "good/a.go" 0) w0)
    as [_ Hfmt].
  assert (fs w0 !! "missing.go" = None) as Hn by by_computation.
  assert (is_Some (snd (GofmtFile collabStrict 0 (loader w0)))) as Hs by (vm_compute; eauto).
  destruct (Hmiss Hn) as (H1 & H2 & _). destruct (Hfmt Hs) as (H3 & H4 & _).
  split; [exact H1|]. split; [exact H2|]. split; [exact H3|exact H4].
Defined.

(** Rewriting one sample file. *)
Lemma handleFix_write_frame_witness :
  fs wWritten !! "broken/a.go" = fs w0 !! "broken/a.go"
  ∧ ∃ c, fs wWritten !! "good/a.go" = Some (mkFile c 420).
Proof.
  destruct (handleFix_write_frame env collab goodFile w0) as (_ & Hother & _ & Hperm).
  assert ("broken/a.go" ≠ info_Name goodFile) as Hne by (vm_compute; discriminate).
  assert (fs w0 !! info_Name goodFile = Some (mkFile (repeat "x"%byte 3) 420)) as Hold
    by by_computation.
  split; [exact (Hother _ Hne)|]. exact (Hperm _ Hold).
Defined.

(** A write that stops after two bytes. *)
Lemma write_mode_partial_write_witness :
  ∃ old, fs w0 !! "good/a.go" = Some old
    ∧ fst (handleFix envWriteStops collab (mkHandler false) goodFile w0)
      = Some (ErrMsg "no space left on device")
    ∧ fs (snd (handleFix envWriteStops collab (mkHandler false) goodFile w0))
      = <["good/a.go" := mkFile
            (take (short envWriteStops (S (clock (snd (readFile envWriteStops "good/a.go" w0)))))
               (repeat "x"%byte 12)) (perm old)]> (fs w0).
Proof.
  assert (readFile envWriteStops (info_Name goodFile) w0
          = ((repeat "x"%byte 3, None), snd (readFile envWriteStops "good/a.go" w0))) as HR
    by by_computation.
  assert (GofmtFile collab (info_AST goodFile) (loader w0) = (repeat "x"%byte 12, None)) as HG
    by by_computation.
  assert (fault envWriteStops (clock (snd (readFile envWriteStops "good/a.go" w0))) = None)
    as H0 by by_computation.
  assert (fault envWriteStops (S (clock (snd (readFile envWriteStops "good/a.go" w0))))
          = Some (ErrMsg "no space left on device")) as H1 by by_computation.
  exact (write_mode_partial_write envWriteStops collab goodFile w0 _ _ _ _ HR HG H0 H1).
Defined.

(** A preview without a diff program. *)
Lemma handleFix_diff_errors_witness :
  ∃ old newSrc cause,
    fs w0 !! "good/a.go" = Some old
    ∧ GofmtFile collab 12 (loader w0) = (newSrc, None)
    ∧ snd (fst (diff envNoDiff (content old) newSrc (snd (readFile envNoDiff "good/a.go" w0))))
      = Some cause
    ∧ cause = ErrMsg "executable file not found in $PATH".
Proof.
  assert (fst (handleFix envNoDiff collab (mkHandler true) goodFile w0)
          = Some (Wrapped "computing diff: " (ErrMsg "executable file not found in $PATH")))
    as H by by_computation.
  destruct (handleFix_diff_errors envNoDiff collab goodFile w0 _ H)
    as [Hr|[Hg|(old & newSrc & cause & H1 & H2 & H3 & H4)]].
  - vm_compute in Hr. discriminate Hr.
  - vm_compute in Hg. discriminate Hg.
  - injection H4 as H4. symmetry in H4. exists old, newSrc, cause. auto.
Defined.

(** Reading a rewritten sample file. *)
Lemma write_then_read_back_witness :
  ∃ newSrc, GofmtFile collab 12 (loader w0) = (newSrc, None)
            ∧ fst (readFile env "good/a.go" wWritten) = (newSrc, None).
Proof.
  assert (handleFix env collab (mkHandler false) goodFile w0 = (None, wWritten)) as H
    by by_computation.
  exact (write_then_read_back env collab goodFile w0 wWritten H eq_refl eq_refl).
Defined.

(** Previewing a rewritten sample file. *)
Lemma write_then_diff_compares_equal_witness :
  ∃ newSrc f1 f2 disk t m,
    GofmtFile collab 12 (loader w0) = (newSrc, None)
    ∧ disk !! f1 = Some (mkFile newSrc m)
    ∧ disk !! f2 = Some (mkFile newSrc m)
    ∧ stdout wPreviewed
      = (stdout w0 ++ list_byte_of_string (diffHeader "good/a.go")
         ++ output (command env t disk "diff" ["-u"; f1; f2]))%list
    ∧ keepsFiles wWritten wPreviewed
    ∧ content <$> fs wPreviewed !! "good/a.go" = Some newSrc.
Proof.
  assert (handleFix env collab (mkHandler false) goodFile w0 = (None, wWritten)) as H1
    by by_computation.
  assert (handleFix env collab (mkHandler true) goodFile wWritten = (None, wPreviewed)) as H2
    by by_computation.
  exact (write_then_diff_compares_equal env collab goodFile w0 wWritten wPreviewed H1 H2).
Defined.

(** Reading a missing and an existing file. *)
Lemma readFile_result_witness :
  snd (fst (readFile env "missing.go" w0)) ≠ None
  ∧ fst (readFile env "good/a.go" w0) = (repeat "x"%byte 3, None).
Proof.
  pose proof (readFile_result env "missing.go" w0) as Hm.
  destruct (readFile env "missing.go" w0) as [[src err] w1].
  destruct Hm as (_ & _ & _ & Hmiss & _).
  split; [apply Hmiss; by_computation|by_computation].
Defined.

(** Counterexample to C4 as stated: the utility runs and [diff] returns
    its output with a nil error, but both deferred unlinks are refused and
    the two temporary files are still on the disk after the call. *)
Lemma diff_leaves_temp_files :
  fst (diff envNoUnlink [x01]%byte [x02]%byte w0) = ([x01; x02]%byte, None)
  ∧ (∃ disk r, diffRun envNoUnlink [x01]%byte [x02]%byte w0
               = Invoked "/tmp/kfix1" "/tmp/kfix2" disk r)
  ∧ fs w0 !! "/tmp/kfix1" = None
  ∧ fs w0 !! "/tmp/kfix2" = None
  ∧ fs (snd (diff envNoUnlink [x01]%byte [x02]%byte w0)) !! "/tmp/kfix1"
    = Some (mkFile [x01]%byte 384)
  ∧ fs (snd (diff envNoUnlink [x01]%byte [x02]%byte w0)) !! "/tmp/kfix2"
    = Some (mkFile [x02]%byte 384)
  ∧ fs (snd (diff envNoUnlink [x01]%byte [x02]%byte w0)) ≠ fs w0.
Proof.
  assert (fs (snd (diff envNoUnlink [x01]%byte [x02]%byte w0)) !! "/tmp/kfix1"
          = Some (mkFile [x01]%byte 384)) as H by by_computation.
  split; [by_computation|].
  split; [eexists _, _; by_computation|].
  split; [by_computation|]. split; [by_computation|].
  split; [exact H|]. split; [by_computation|].
  intros Heq. rewrite Heq in H. vm_compute in H. discriminate H.
Qed.

(** With unlinks that succeed, the sample call of [diff] leaves the disk
    as it was and the two files it created are gone. *)
Lemma diff_removes_temp_files_witness :
  fs (snd (diff env [x01]%byte [x02]%byte w0)) = fs w0
  ∧ match diffRun env [x01]%byte [x02]%byte w0 with
    | StoreFailed _ => True
    | Invoked f1 f2 disk _ =>
        is_Some (disk !! f1) ∧ is_Some (disk !! f2)
        ∧ fs (snd (diff env [x01]%byte [x02]%byte w0)) !! f1 = None
        ∧ fs (snd (diff env [x01]%byte [x02]%byte w0)) !! f2 = None
    end.
Proof.
  assert (∀ n, n ∈ diffUnlinks env [x01]%byte [x02]%byte w0 → fault env n = None) as Hok
    by (intros n _; reflexivity).
  exact (proj2 (diff_removes_temp_files env [x01]%byte [x02]%byte w0) Hok).
Defined.

(** Counterexample to C9 as stated: the write stops after two of three
    bytes, [writeTempFile] returns the empty name and the error, and the
    unlink is refused, so the file with the two bytes stays on the disk. *)
Lemma writeTempFile_leaves_partial_file :
  fst (writeTempFile envStuckFile "" "kfix" [x01; x02; x03]%byte w0)
  = ("", Some (ErrMsg "no space left on device"))
  ∧ fs w0 !! "/tmp/kfix1" = None
  ∧ fs (snd (writeTempFile envStuckFile "" "kfix" [x01; x02; x03]%byte w0)) !! "/tmp/kfix1"
    = Some (mkFile [x01; x02]%byte 384)
  ∧ fs (snd (writeTempFile envStuckFile "" "kfix" [x01; x02; x03]%byte w0)) ≠ fs w0.
Proof.
  assert (fs (snd (writeTempFile envStuckFile "" "kfix" [x01; x02; x03]%byte w0))
            !! "/tmp/kfix1" = Some (mkFile [x01; x02]%byte 384)) as H by by_computation.
  split; [by_computation|]. split; [by_computation|]. split; [exact H|].
  intros Heq. rewrite Heq in H. vm_compute in H. discriminate H.
Qed.

(** A short write followed by an unlink that succeeds: the error comes
    back with the empty name and the disk is as before. *)
Lemma writeTempFile_atomic_witness :
  let '((name, err), w1) := writeTempFile envShortWrite "" "kfix" [x01; x02; x03]%byte w0 in
  err ≠ None → name = "" ∧ fs w1 = fs w0.
Proof.
  pose proof (writeTempFile_atomic envShortWrite "" "kfix" [x01; x02; x03]%byte w0) as H.
  assert (storeUnlink envShortWrite "" "kfix" [x01; x02; x03]%byte w0 = Some 3) as Hu
    by by_computation.
  destruct (writeTempFile envShortWrite "" "kfix" [x01; x02; x03]%byte w0)
    as [[name [e|]] w1].
  - intros _. destruct H as (_ & _ & Hname & Hdisk). split; [exact Hname|].
    rewrite Hu in Hdisk. destruct Hdisk as [Hback _]. apply Hback. by_computation.
  - intros Hn. by destruct Hn.
Defined.

(** Previewing a sample file: the disk is as before when the unlinks
    succeed, and the file itself is as before also when they are refused. *)
Lemma diff_mode_leaves_disk_witness :
  fs (snd (handleFix env collab (mkHandler true) goodFile w0)) = fs w0
  ∧ fs (snd (handleFix envNoUnlink collab (mkHandler true) goodFile w0)) !! "good/a.go"
    = fs w0 !! "good/a.go".
Proof.
  destruct (diff_mode_leaves_disk env collab goodFile w0) as (_ & _ & Hall).
  destruct (diff_mode_leaves_disk envNoUnlink collab goodFile w0) as (_ & Hpath & _).
  assert (∀ n, fault env n = None) as Hok by (intros n; reflexivity).
  split; [exact (Hall Hok)|exact Hpath].
Defined.

(** Counterexample to C10 as stated: in write mode a path with no file
    gives the error of reading it, and no file is created there, with
    mode 0 or any other. *)
Lemma write_mode_missing_target :
  fs w0 !! "missing.go" = None
  ∧ fst (handleFix env collab (mkHandler false) (mkInfo "missing.go" 3) w0)
    = Some (ErrMsg "no such file or directory")
  ∧ fs (snd (handleFix env collab (mkHandler false) (mkInfo "missing.go" 3) w0))
      !! "missing.go" = None
  ∧ ¬ ∃ data, fs (snd (handleFix env collab (mkHandler false) (mkInfo "missing.go" 3) w0))
                !! "missing.go" = Some (mkFile data 0).
Proof.
  assert (fs (snd (handleFix env collab (mkHandler false) (mkInfo "missing.go" 3) w0))
            !! "missing.go" = None) as H by by_computation.
  split; [by_computation|]. split; [by_computation|]. split; [exact H|].
  intros [data Hd]. rewrite H in Hd. discriminate Hd.
Qed.

(** Rewriting an existing sample file, a missing one, and [WriteFile]
    alone on a new path. *)
Lemma write_mode_permissions_witness :
  handleFix env collab (mkHandler false) goodFile w0
  = WriteFile env "good/a.go" (repeat "x"%byte 12) 0 wRead
  ∧ (∃ old newSrc,
       fs w0 !! "good/a.go" = Some old
       ∧ GofmtFile collab 12 (loader w0) = (newSrc, None)
       ∧ fs wWritten = <["good/a.go" := mkFile newSrc (perm old)]> (fs w0))
  ∧ is_Some (fst (handleFix env collab (mkHandler false) (mkInfo "missing.go" 3) w0))
  ∧ fs (snd (handleFix env collab (mkHandler false) (mkInfo "missing.go" 3) w0)) = fs w0
  ∧ fs (snd (WriteFile env "new.go" [x01; x02]%byte 0 w0))
    = <["new.go" := mkFile [x01; x02]%byte 0]> (fs w0).
Proof.
  destruct (write_mode_permissions env collab goodFile w0) as (Hh & Hold & _ & Hnew).
  destruct (write_mode_permissions env collab (mkInfo "missing.go" 3) w0)
    as (_ & _ & Hmiss & _).
  assert (readFile env (info_Name goodFile) w0 = ((repeat "x"%byte 3, None), wRead)) as HR
    by by_computation.
  assert (GofmtFile collab (info_AST goodFile) (loader wRead) = (repeat "x"%byte 12, None))
    as HG by by_computation.
  assert (handleFix env collab (mkHandler false) goodFile w0 = (None, wWritten)) as HW
    by by_computation.
  assert (fs w0 !! info_Name (mkInfo (tree := nat) "missing.go" 3) = None) as Hn
    by by_computation.
  assert (fs w0 !! "new.go" = None) as Hfresh by by_computation.
  assert (WriteFile env "new.go" [x01; x02]%byte 0 w0
          = (None, snd (WriteFile env "new.go" [x01; x02]%byte 0 w0))) as Hnw
    by by_computation.
  destruct (Hmiss Hn) as (Hm1 & Hm2 & _).
  split; [exact (Hh wRead _ _ HR HG)|].
  split; [exact (Hold wWritten HW)|].
  split; [exact Hm1|]. split; [exact Hm2|].
  exact (Hnew "new.go" [x01; x02]%byte w0 _ Hfresh Hnw).
Defined.

End MoreRuns.
